(** * Composite-rating query compiler and side-effect ratings

    A shallow embedding of [composite_rating_report.py] (token rewriter,
    table extractor, query builder, report driver) and of the two
    side-effect ratings of [upload_rating.py], with the properties the
    specification states about them.

    Python byte strings are lists of characters; the regular expressions
    of the program are run by a small backtracking matcher that follows the
    priorities of Python's [re] module (leftmost match, greedy star). *)

From Stdlib Require Import Ascii String Arith Bool Lia ZArith List.
From Stdlib Require Import Sorting.Sorted Sorting.Permutation.
From Stdlib Require Import Numbers.DecimalString.
Import ListNotations.

Local Open Scope list_scope.
Local Open Scope char_scope.

(** ** Byte strings *)

Definition text : Type := list ascii.

(** A string literal of the source. *)
Definition txt (s : string) : text := list_ascii_of_string s.

Definition text_eq_dec : forall a b : text, {a = b} + {a <> b} :=
  list_eq_dec ascii_dec.

Definition text_eqb (a b : text) : bool :=
  if text_eq_dec a b then true else false.

(** [p in s] for Python strings: [p] occurs in [s] as a substring. *)
Fixpoint startswith (p s : text) : bool :=
  match p, s with
  | [], _ => true
  | _ :: _, [] => false
  | x :: p', y :: s' => Ascii.eqb x y && startswith p' s'
  end.

Fixpoint contains (p s : text) : bool :=
  startswith p s ||
  match s with
  | [] => false
  | _ :: s' => contains p s'
  end.

Definition substring (p s : text) : Prop :=
  exists pre post, s = pre ++ p ++ post.

(** [str(n)] and ["%d" % n] for an integer. *)
Definition str_of_Z (n : Z) : text :=
  txt (NilEmpty.string_of_int (Z.to_int n)).

Definition str_of_nat (n : nat) : text := str_of_Z (Z.of_nat n).

(** [sep.join(l)] *)
Fixpoint join (sep : text) (l : list text) : text :=
  match l with
  | [] => []
  | [x] => x
  | x :: l' => x ++ sep ++ join sep l'
  end.

(** ** Ordering of strings, [set] and [sorted]

    Python 2 compares byte strings lexicographically by byte value. *)

Fixpoint text_compare (a b : text) : comparison :=
  match a, b with
  | [], [] => Eq
  | [], _ :: _ => Lt
  | _ :: _, [] => Gt
  | x :: a', y :: b' =>
      match Nat.compare (nat_of_ascii x) (nat_of_ascii y) with
      | Eq => text_compare a' b'
      | c => c
      end
  end.

Definition text_leb (a b : text) : bool :=
  match text_compare a b with Gt => false | _ => true end.

Definition text_lt (a b : text) : Prop := text_compare a b = Lt.

Definition mem (t : text) (l : list text) : bool :=
  existsb (text_eqb t) l.

(** [list(set(l))]: the distinct elements of [l]; the order Python's set
    gives them in is unspecified, and [sorted] below does not depend on it
    (see [sorted_Permutation]). *)
Definition list_set (l : list text) : list text := nodup text_eq_dec l.

Fixpoint insert_sorted (t : text) (l : list text) : list text :=
  match l with
  | [] => [t]
  | u :: l' => if text_leb t u then t :: l else u :: insert_sorted t l'
  end.

(** [sorted(l)] and [l.sort()] *)
Fixpoint sorted (l : list text) : list text :=
  match l with
  | [] => []
  | t :: l' => insert_sorted t (sorted l')
  end.

(** ** Regular expressions

    The patterns of the program are sequences of single characters,
    character classes and starred classes around one capture group:
    [pre ( group ) post]. *)

Inductive cset : Type :=
| CChar (c : ascii)      (* a literal character, also an escaped one *)
| CDigit                 (* [0-9] *)
| CNot (c : ascii)       (* [^c], which also accepts a newline *)
| CDot.                  (* . : any character but a newline *)

Definition is_digit (x : ascii) : bool :=
  ((48 <=? nat_of_ascii x) && (nat_of_ascii x <=? 57))%nat.

Definition in_cset (cs : cset) (x : ascii) : bool :=
  match cs with
  | CChar c => Ascii.eqb x c
  | CDigit => is_digit x
  | CNot c => negb (Ascii.eqb x c)
  | CDot => negb (Ascii.eqb x "010")
  end.

Inductive atom : Type :=
| One (cs : cset)        (* one character of the class *)
| Star (cs : cset).      (* cs*, greedy *)

Record regex : Type := Regex {
  re_pre : list atom;
  re_group : list atom;
  re_post : list atom
}.

Section Matcher.
Context {R : Type}.

(** Greedy star with backtracking: the longest run is tried first, and
    a shorter one only when the rest of the pattern fails after it. *)
Fixpoint star_k (p : ascii -> bool) (s : text)
         (k : text -> option R) : option R :=
  match s with
  | c :: s' =>
      if p c then
        match star_k p s' k with
        | Some r => Some r
        | None => k s
        end
      else k s
  | [] => k []
  end.

(** [match_k atoms s k]: match [atoms] at the start of [s] and hand the
    rest of the input to [k]; [None] when every alternative fails. *)
Fixpoint match_k (atoms : list atom) (s : text)
         (k : text -> option R) : option R :=
  match atoms with
  | [] => k s
  | One cs :: atoms' =>
      match s with
      | c :: s' => if in_cset cs c then match_k atoms' s' k else None
      | [] => None
      end
  | Star cs :: atoms' =>
      star_k (in_cset cs) s (fun s' => match_k atoms' s' k)
  end.
End Matcher.

(** [re.match]: the captured group and the input left after the match. *)
Definition re_match (r : regex) (s : text) : option (text * text) :=
  match_k (re_pre r) s (fun s1 =>
  match_k (re_group r) s1 (fun s2 =>
  match_k (re_post r) s2 (fun s3 =>
    Some (firstn (length s1 - length s2) s1, s3)))).

(** A replacement template: literal text and [\1]. *)
Inductive repl_item : Type :=
| RLit (t : text)
| RGroup.

Definition expand (template : list repl_item) (g : text) : text :=
  concat (map (fun i => match i with RLit t => t | RGroup => g end) template).

(** Scanning from left to right. Every pattern of the program consumes
    at least one character ([re_match_shorter]), so the scan resumes
    after a match on a strictly shorter input and [length s] steps are
    enough ([re_sub_cons], [re_findall_cons]). *)
Fixpoint sub_from (fuel : nat) (r : regex) (template : list repl_item)
         (s : text) : text :=
  match fuel with
  | O => s
  | S fuel' =>
      match s with
      | [] => []
      | c :: s' =>
          match re_match r s with
          | Some (g, rest) => expand template g ++ sub_from fuel' r template rest
          | None => c :: sub_from fuel' r template s'
          end
      end
  end.

(** [re.sub(r, template, s)] *)
Definition re_sub (r : regex) (template : list repl_item) (s : text) : text :=
  sub_from (length s) r template s.

Fixpoint findall_from (fuel : nat) (r : regex) (s : text) : list text :=
  match fuel with
  | O => []
  | S fuel' =>
      match s with
      | [] => []
      | _ :: s' =>
          match re_match r s with
          | Some (g, rest) => g :: findall_from fuel' r rest
          | None => findall_from fuel' r s'
          end
      end
  end.

(** [re.findall(r, s)] for a pattern with one group: the groups of the
    successive non-overlapping matches. *)
Definition re_findall (r : regex) (s : text) : list text :=
  findall_from (length s) r s.

(** ** composite_rating_report.py *)

(** The patterns of the candidate and header fields: the tag [c] or [h],
    an escaped opening brace, a group of any number of characters other
    than a closing brace, and a closing brace. *)
Definition field_pattern (tag : ascii) : regex :=
  Regex [One (CChar tag); One (CChar "{")] [Star (CNot "}")] [One (CChar "}")].

(** The pattern of a rating: [r], an escaped opening brace, a group of
    any number of digits, and a closing brace. *)
Definition rating_pattern : regex :=
  Regex [One (CChar "r"); One (CChar "{")] [Star CDigit] [One (CChar "}")].

(** The pattern of [get_tables]: a group of [rat] and any number of
    digits, followed by a dot that is not escaped. *)
Definition alias_pattern : regex :=
  Regex [] [One (CChar "r"); One (CChar "a"); One (CChar "t"); Star CDigit]
        [One CDot].

Definition get_tables (prepped_string : text) : list text :=
  let tables := [] in
  let tables :=
    if contains (txt "pdm_candidates.") prepped_string
    then tables ++ [txt "pdm_candidates"] else tables in
  let tables :=
    if contains (txt "headers.") prepped_string
    then tables ++ [txt "headers"] else tables in
  let tables := tables ++ re_findall alias_pattern prepped_string in
  sorted (list_set tables).

Definition prep_composite_rating (string : text) : text :=
  (* replace candidate table fields *)
  let string := re_sub (field_pattern "c")
                       [RLit (txt "pdm_candidates."); RGroup] string in
  (* replace header table fields *)
  let string := re_sub (field_pattern "h")
                       [RLit (txt "headers."); RGroup] string in
  (* replace ratings *)
  let string := re_sub rating_pattern
                       [RLit (txt "rat"); RGroup; RLit (txt ".value")] string in
  string.

(** The loop body of [build_query]: the text one table adds to the query.
    [pdm_class_type_id] is what
    [rating_utils.get_default_pdm_class_type_id()] returns. *)
Definition join_clause (pdm_class_type_id : Z) (table : text) : text :=
  if text_eqb table (txt "headers") then
    txt " LEFT JOIN headers ON " ++
    txt " headers.header_id = pdm_candidates.header_id "
  else if text_eqb table (txt "pdm_classifications") then
    txt " LEFT JOIN pdm_classifications ON " ++
    txt " pdm_candidates.pdm_cand_id = pdm_classifications.pdm_cand_id AND" ++
    (txt " pdm_classifications.pdm_class_type_id = " ++
       str_of_Z pdm_class_type_id ++ txt " AND ") ++
    txt " pdm_classifications.who = 'PL' "
  else if startswith (txt "rat") table then
    (txt " LEFT JOIN ratings AS " ++ table ++ txt " ON ") ++
    (txt " " ++ table ++ txt ".pdm_cand_id = pdm_candidates.pdm_cand_id AND ") ++
    (txt " " ++ table ++ txt ".rating_id = " ++ skipn 3 table ++ txt " ")
  else [].

Definition build_query (pdm_class_type_id : Z) (prepped_string where_ : text)
           (no_test : bool) (classifications : list Z) : text :=
  (* Get list of tables to use *)
  let rating_tables := get_tables prepped_string in
  let where_tables := get_tables where_ in
  let tables := sorted (list_set (where_tables ++ rating_tables)) in
  let tables :=
    if no_test then
      if negb (mem (txt "headers") tables)
      then sorted (tables ++ [txt "headers"]) else tables
    else tables in
  let tables :=
    if (0 <? length classifications)%nat then
      if negb (mem (txt "pdm_classifications") tables)
      then sorted (tables ++ [txt "pdm_classifications"]) else tables
    else tables in
  let query := txt "SELECT " ++ prepped_string ++
               txt " AS composite_rating FROM pdm_candidates " in
  let query :=
    fold_left (fun query table => query ++ join_clause pdm_class_type_id table)
              tables query in
  let query := query ++ (txt "WHERE " ++ where_ ++ txt " ") in
  let query :=
    if no_test then query ++ txt " AND headers.source_name LIKE 'G%' "
    else query in
  let query :=
    if (0 <? length classifications)%nat then
      query ++ (txt " AND pdm_classifications.rank IN (" ++
                join (txt ",") (map str_of_Z classifications) ++ txt ") ")
    else query in
  let query := query ++ txt " HAVING composite_rating IS NOT NULL" in
  query.

(** The value of [tables] when the loop of [build_query] starts: its
    first statements on their own ([build_query_eq]). *)
Definition query_tables (prepped_string where_ : text) (no_test : bool)
           (classifications : list Z) : list text :=
  let rating_tables := get_tables prepped_string in
  let where_tables := get_tables where_ in
  let tables := sorted (list_set (where_tables ++ rating_tables)) in
  let tables :=
    if no_test then
      if negb (mem (txt "headers") tables)
      then sorted (tables ++ [txt "headers"]) else tables
    else tables in
  let tables :=
    if (0 <? length classifications)%nat then
      if negb (mem (txt "pdm_classifications") tables)
      then sorted (tables ++ [txt "pdm_classifications"]) else tables
    else tables in
  tables.

(** *** The report driver

    [produce_report] talks to two collaborators: the data store
    ([rating_utils.get_data]) and the plotting library. The store is a
    state that answers a query with a sequence of values; the calls to the
    plotting library are recorded in the order they are made. *)

Inductive plot_call (value : Type) : Type :=
| Figure
| Hist (ratings : list value) (numbins : Z) (edgecolor : text)
       (label : text) (normed : bool)
| Title (t : text)
| Xlabel (t : text)
| Ylabel (t : text)
| Legend (loc : text) (alpha : text)
| Ylim_low (low : text)
| Yscale (scale : text)
| Connect_key_press
| Show.

Arguments Figure {value}.
Arguments Hist {value}.
Arguments Title {value}.
Arguments Xlabel {value}.
Arguments Ylabel {value}.
Arguments Legend {value}.
Arguments Ylim_low {value}.
Arguments Yscale {value}.
Arguments Connect_key_press {value}.
Arguments Show {value}.

Record world (value store : Type) : Type := World {
  db : store;                       (* the data store *)
  queries : list text;              (* the queries sent so far *)
  plots : list (plot_call value)    (* the plotting calls made so far *)
}.

Arguments World {value store}.
Arguments db {value store}.
Arguments queries {value store}.
Arguments plots {value store}.

Section Report.
Variables value store : Type.
Variable get_data_answer : text -> store -> list value * store.
Variable pdm_class_type_id : Z.

Definition io (A : Type) : Type :=
  world value store -> A * world value store.

Definition ret {A} (a : A) : io A := fun w => (a, w).

Definition bind {A B} (m : io A) (f : A -> io B) : io B :=
  fun w => let (a, w') := m w in f a w'.

Notation "x <- m ;; k" := (bind m (fun x => k))
  (at level 61, m at next level, right associativity).
Notation "m ;;; k" := (bind m (fun _ => k))
  (at level 61, right associativity).

(** [rating_utils.get_data(query)] *)
Definition get_data (query : text) : io (list value) :=
  fun w =>
    let (ratings, db') := get_data_answer query (db w) in
    (ratings, World db' (queries w ++ [query]) (plots w)).

Definition plt (c : plot_call value) : io unit :=
  fun w => (tt, World (db w) (queries w) (plots w ++ [c])).

Definition produce_report (prepped_string where_ : text) (numbins : Z)
           (norm log : bool) : io unit :=
  plt Figure ;;;
  (* Plot all ratings in black *)
  let query := build_query pdm_class_type_id prepped_string where_ false [] in
  ratings <- get_data query ;;
  (if (0 <? length ratings)%nat then
     plt (Hist ratings numbins (txt "k")
               (txt "All Cands (" ++ str_of_nat (length ratings) ++ txt ")")
               norm)
   else ret tt) ;;;
  (* Plot bad ratings (RFI, Noise) in red *)
  let query := build_query pdm_class_type_id prepped_string where_ false
                           [4; 5]%Z in
  ratings <- get_data query ;;
  (if (0 <? length ratings)%nat then
     plt (Hist ratings numbins (txt "r")
               (txt "RFI/Noise (" ++ str_of_nat (length ratings) ++ txt ")")
               norm)
   else ret tt) ;;;
  (* Plot pulsars (known, harmonic) in green *)
  let query := build_query pdm_class_type_id prepped_string where_ false
                           [6; 7]%Z in
  ratings <- get_data query ;;
  (if (0 <? length ratings)%nat then
     plt (Hist ratings numbins (txt "g")
               (txt "Known/Harmonic (" ++ str_of_nat (length ratings) ++ txt ")")
               norm)
   else ret tt) ;;;
  (* Plot good ratings (class 1, 2, 3) in blue *)
  let query := build_query pdm_class_type_id prepped_string where_ false
                           [1; 2; 3]%Z in
  ratings <- get_data query ;;
  (if (0 <? length ratings)%nat then
     plt (Hist ratings numbins (txt "c")
               (txt "Class 1/2/3 (" ++ str_of_nat (length ratings) ++ txt ")")
               norm)
   else ret tt) ;;;
  (* Label plot *)
  plt (Title prepped_string) ;;;
  plt (Xlabel (txt "Composite rating value")) ;;;
  plt (Ylabel (txt "Number")) ;;;
  (* legend *)
  plt (Legend (txt "best") (txt "0.5")) ;;;
  (* set vertical axis to log *)
  (if log then plt (Ylim_low (txt "0.1")) ;;; plt (Yscale (txt "log"))
   else ret tt) ;;;
  plt Connect_key_press ;;;
  plt Show.
End Report.

Arguments ret {value store A}.
Arguments bind {value store A B}.
Arguments plt {value store}.
Arguments get_data {value store}.
Arguments produce_report {value store}.

(** *** Rating types, the command line and [main]

    A row of the rating_types relation is a dictionary; [format_rating]
    reads it and, when asked for the complete form, writes the wrapped
    description back into it. [colour.cstring], [textwrap.fill] and the
    dictionary cursor of the store are collaborators and are given as
    functions. *)

Inductive dbval : Type :=
| DNull
| DInt (n : Z)
| DStr (t : text).

Definition row : Type := text -> option dbval.

(** [d[key] = v] *)
Definition setitem (d : row) (key : text) (v : dbval) : row :=
  fun k => if text_eqb k key then Some v else d k.

Inductive report_error : Type :=
| RKeyError (key : text)
| RTypeError
| RAttributeError
| RIndexError.

Inductive outcome (A : Type) : Type :=
| Done (a : A)
| Exit (status : Z)             (* sys.exit(status) *)
| Raised (e : report_error).

Arguments Done {A}.
Arguments Exit {A}.
Arguments Raised {A}.

Definition newline : text := ["010"].
Definition tab : text := ["009"].

(** The conversion [%s]. *)
Definition format_s (v : dbval) : text :=
  match v with
  | DNull => txt "None"
  | DInt n => str_of_Z n
  | DStr t => t
  end.

(** The conversion [%d]: a number is required. *)
Definition format_d (v : dbval) : option text :=
  match v with
  | DInt n => Some (str_of_Z n)
  | _ => None
  end.

(** [s.split(sep)] for a separator of one character. *)
Fixpoint split_on (sep : ascii) (cur s : text) : list text :=
  match s with
  | [] => [cur]
  | c :: s' =>
      if Ascii.eqb c sep then cur :: split_on sep [] s'
      else split_on sep (cur ++ [c]) s'
  end.

Definition is_space (c : ascii) : bool :=
  match nat_of_ascii c with
  | 9 | 10 | 11 | 12 | 13 | 32 => true
  | _ => false
  end.

Fixpoint lstrip (s : text) : text :=
  match s with
  | c :: s' => if is_space c then lstrip s' else s
  | [] => []
  end.

(** [s.strip()] *)
Definition strip (s : text) : text := rev (lstrip (rev (lstrip s))).

Definition get_rating_types_query (rating_ids : list Z) : text :=
  txt "SELECT * FROM rating_types WHERE rating_id IN (" ++
  join (txt ",") (map str_of_Z rating_ids) ++ txt ")".

Record options : Type := Options {
  list_ratings : bool;
  describe_rating : option Z;
  where_clause : text;
  opt_numbins : Z;
  opt_norm : bool;
  opt_log : bool
}.

Record console : Type := Console { stdout : text; stderr : text }.

(** The print statement: the items separated by spaces, and a newline. *)
Definition print (items : list text) (con : console) : console :=
  Console (stdout con ++ join (txt " ") items ++ newline) (stderr con).

Section CommandLine.
Variables value store : Type.
Variable get_data_answer : text -> store -> list value * store.
Variable pdm_class_type_id : Z.
Variable get_rows : text -> list row.          (* get_data(..., dictcursor=True) *)
Variable cstring_bold : text -> text.          (* colour.cstring(s, bold=1) *)
Variable cstring_underline : text -> text.     (* colour.cstring(s, underline=1) *)
Variable fill60 : text -> text.   (* textwrap.fill, width 60, tab indents *)
Variable fill72 : text -> text.   (* textwrap.fill, width 72, tab indents *)

Definition get_all_rating_types : list row :=
  get_rows (txt "SELECT * FROM rating_types;").

Definition get_rating_types (rating_ids : list Z) : list row :=
  get_rows (get_rating_types_query rating_ids).

(** [format_rating(rating_type, complete)]: the text, or the error raised,
    and the dictionary as the call leaves it. *)
Definition format_rating (rating_type : row) (complete : bool)
  : (report_error + text) * row :=
  match rating_type (txt "name") with
  | None => (inl (RKeyError (txt "name")), rating_type)
  | Some name =>
  match rating_type (txt "version") with
  | None => (inl (RKeyError (txt "version")), rating_type)
  | Some version =>
  match format_d version with
  | None => (inl RTypeError, rating_type)
  | Some version =>
  match rating_type (txt "rating_id") with
  | None => (inl (RKeyError (txt "rating_id")), rating_type)
  | Some rating_id =>
  match format_d rating_id with
  | None => (inl RTypeError, rating_type)
  | Some rating_id =>
      let formatted :=
        cstring_bold (txt "Rating") ++ txt ": " ++
        cstring_underline (format_s name) ++ txt " " ++
        (txt "v" ++ version ++ newline ++ tab ++ txt "(ID: " ++ rating_id ++
         txt ")") in
      if complete then
        match rating_type (txt "description") with
        | None => (inl (RKeyError (txt "description")), rating_type)
        | Some (DStr description) =>
            let paragraphs := split_on "010" [] description in
            let description :=
              join newline (map (fun p => fill60 (strip p)) paragraphs) in
            let rating_type :=
              setitem rating_type (txt "description") (DStr description) in
            (inr (formatted ++ (newline ++ description)), rating_type)
        | Some _ => (inl RAttributeError, rating_type)
        end
      else (inr formatted, rating_type)
  end end end end end.

Definition main (args : list text) (options : options) (con : console)
           (w : world value store)
  : outcome unit * console * world value store :=
  if (length args <? 1)%nat then
    (Exit 1,
     Console (stdout con)
             (stderr con ++ txt "No rating string provided! Exiting..." ++
              newline),
     w)
  else
    let rating_string := join (txt " ") args in
    let con :=
      print [txt "Input composite rating string: "; rating_string] con in
    let prepped_string := prep_composite_rating rating_string in
    let con :=
      print [txt "Prepped composite rating string:"; prepped_string] con in
    let rating_tables := get_tables prepped_string in
    let where_clause := prep_composite_rating (where_clause options) in
    let con := print [txt "Where clause:"; where_clause] con in
    let where_tables := get_tables where_clause in
    let tables := sorted (list_set (where_tables ++ rating_tables)) in
    let con :=
      print [txt "MySQL DB tables to use:"; join (txt ", ") tables] con in
    let query :=
      build_query pdm_class_type_id prepped_string where_clause false [] in
    let con := print [txt "MySQL query to compute composite rating:"] con in
    let con := print [fill72 query] con in
    let (_, w') :=
      produce_report get_data_answer pdm_class_type_id prepped_string
                     where_clause (opt_numbins options) (opt_norm options)
                     (opt_log options) w in
    (Done tt, con, w').

(** The loop that lists the ratings: it stops at the first error. *)
Fixpoint print_ratings (rating_types : list row) (con : console)
  : option report_error * console :=
  match rating_types with
  | [] => (None, con)
  | rt :: rest =>
      match fst (format_rating rt false) with
      | inl e => (Some e, con)
      | inr formatted => print_ratings rest (print [formatted] con)
      end
  end.

(** What the script does once the options are parsed. *)
Definition script (args : list text) (options : options) (con : console)
           (w : world value store)
  : outcome unit * console * world value store :=
  if list_ratings options then
    (* List ratings and exit *)
    match print_ratings get_all_rating_types con with
    | (Some e, con') => (Raised e, con', w)
    | (None, con') => (Exit 0, con', w)
    end
  else
    match describe_rating options with
    | Some id =>
        (* Describe rating and exit *)
        match get_rating_types [id] with
        | [] => (Raised RIndexError, con, w)
        | rt :: _ =>
            match fst (format_rating rt true) with
            | inl e => (Raised e, con, w)
            | inr formatted => (Exit 0, print [formatted] con, w)
            end
        end
    | None => main args options con w
    end.
End CommandLine.

Arguments format_rating cstring_bold cstring_underline fill60 rating_type
  complete : assert.
Arguments main {value store}.
Arguments script {value store}.

(** ** upload_rating.py

    The two ratings act on the outside world: a stored procedure run on
    the Cornell database, and an rsync run through the shell. The calls
    are recorded as events; what the outside world answers is given by
    the functions of the section. *)

Inductive pyval : Type :=
| VNone
| VInt (n : Z)             (* int or long *)
| VOther (repr : text).    (* a value of any other type *)

Inductive exn : Type :=
| KeyError (key : text)
| ValueError (msg : text)
| IOError (filename : text)
| UploadError (msg : text)
| ShareError (msg : text).

Inductive event : Type :=
| Print (what : text) (v : pyval)
| Execute (query : text)     (* cursor.execute(query) *)
| Commit                     (* conn.commit() *)
| Call (cmd : text).         (* subprocess.call(cmd, shell=True) *)

Inductive result (A : Type) : Type :=
| Return (a : A)
| Raise (e : exn).

Arguments Return {A}.
Arguments Raise {A}.

Record candidate_files : Type := Pfd { pfd_filename : text }.

(** [os.path.split(p)[1]]: what follows the last slash. *)
Fixpoint path_tail (acc p : text) : text :=
  match p with
  | [] => acc
  | c :: p' =>
      if Ascii.eqb c "/" then path_tail [] p' else path_tail (acc ++ [c]) p'
  end.

Definition USERNAME : text := txt "mtan".

Section Upload.
Variable path_exists : text -> bool.       (* os.path.exists *)
Variable read_hex : text -> option text.   (* the file's bytes in hex, or
                                              None when open or read
                                              raises IOError *)
Variable fetchone : text -> bool.          (* is the row fetched after
                                              the query truthy *)
Variable retcode : text -> Z.              (* exit status of a command *)
Variable institution : text.               (* config.institution *)

Definition eff (A : Type) : Type := list event -> result A * list event.

Definition ereturn {A} (a : A) : eff A := fun tr => (Return a, tr).
Definition eraise {A} (e : exn) : eff A := fun tr => (Raise e, tr).
Definition emit (e : event) : eff unit := fun tr => (Return tt, tr ++ [e]).

Definition ebind {A B} (m : eff A) (f : A -> eff B) : eff B :=
  fun tr =>
    match m tr with
    | (Return a, tr') => f a tr'
    | (Raise e, tr') => (Raise e, tr')
    end.

Notation "x <- m ;; k" := (ebind m (fun x => k))
  (at level 61, m at next level, right associativity).
Notation "m ;;; k" := (ebind m (fun _ => k))
  (at level 61, right associativity).

(** [candidate[key]] on a dictionary. *)
Definition getitem (candidate : text -> option pyval) (key : text)
  : eff pyval :=
  match candidate key with
  | Some v => ereturn v
  | None => eraise (KeyError key)
  end.

Definition upload_pfd (cand_id : pyval) (pfdfn : text) : eff unit :=
  match cand_id with
  | VInt n =>
      if negb (path_exists pfdfn) then
        eraise (ValueError
                  (txt "pfdfn doesn't point to an existing file: " ++ pfdfn))
      else
        match read_hex pfdfn with
        | None => eraise (IOError pfdfn)
        | Some filedata =>
            let query :=
              txt "EXEC spPDMCandPlotLoader " ++
              txt "@pdm_cand_id=" ++ str_of_Z n ++ txt ", " ++
              txt "@pdm_plot_type='pfd binary', " ++
              txt "@filename='" ++ path_tail [] pfdfn ++ txt "', " ++
              txt "@filedata=0x" ++ filedata in
            emit (Execute query) ;;;
            emit Commit ;;;
            if negb (fetchone query) then
              eraise (UploadError (txt "Plot upload failed!"))
            else ereturn tt
        end
  | _ =>
      emit (Print (txt "type(cand_id):") cand_id) ;;;
      emit (Print (txt "cand_id:") cand_id) ;;;
      eraise (ValueError (txt "cand_id must be of type integer."))
  end.

Definition UploadRating_rate_candidate (candidate : text -> option pyval)
           (pfd : candidate_files) : eff Z :=
  cand_id <- getitem candidate (txt "cornell_pdm_cand_id") ;;
  match cand_id with
  | VNone =>
      eraise (UploadError (txt "Candidate must be uploaded to Cornell " ++
                           txt "before .pfd file can be uploaded."))
  | _ =>
      upload_pfd cand_id (pfd_filename pfd) ;;;
      ereturn 1%Z
  end.

Definition share_pfd (pfdfn : text) : eff unit :=
  if negb (path_exists pfdfn) then
    eraise (ValueError
              (txt "pfdfn doesn't point to an existing file: " ++ pfdfn))
  else
    let cmd :=
      txt "rsync -u pfdfn " ++ USERNAME ++
      txt "@miarka.physics.mcgill.ca:/data/alfa/PALFA/pfds/" ++
      institution ++ txt "/" ++ path_tail [] pfdfn in
    emit (Call cmd) ;;;
    if negb (retcode cmd =? 0)%Z then
      eraise (ShareError (txt "Rsync of pfd file (" ++ pfdfn ++
                          txt ") failed!"))
    else ereturn tt.

Definition SharePfdRating_rate_candidate (candidate : text -> option pyval)
           (pfd : candidate_files) : eff Z :=
  cand_id <- getitem candidate (txt "cornell_pdm_cand_id") ;;
  match cand_id with
  | VNone =>
      eraise (ShareError (txt "Candidate must be uploaded to Cornell " ++
                          txt "before .pfd file should be shared."))
  | _ =>
      share_pfd (pfd_filename pfd) ;;;
      ereturn 1%Z
  end.
End Upload.

(** * Notions the properties are stated with *)

(** ** What a pattern accepts

    What a sequence of atoms accepts, stated without the search. *)

Inductive matches : list atom -> text -> Prop :=
| matches_nil : matches [] []
| matches_one cs c atoms m :
    in_cset cs c = true -> matches atoms m ->
    matches (One cs :: atoms) (c :: m)
| matches_star cs ds atoms m :
    Forall (fun c => in_cset cs c = true) ds -> matches atoms m ->
    matches (Star cs :: atoms) (ds ++ m).

(** The number of characters every match consumes at least. *)
Fixpoint min_length (atoms : list atom) : nat :=
  match atoms with
  | [] => 0
  | One _ :: atoms' => S (min_length atoms')
  | Star _ :: atoms' => min_length atoms'
  end.

Definition consuming (r : regex) : Prop :=
  0 < min_length (re_pre r) + min_length (re_group r) + min_length (re_post r).

(** ** Joined tables

    The tables for which the loop of [build_query] adds text to the
    query, in the order of the loop. *)
Definition emits_join (id : Z) (table : text) : bool :=
  negb (text_eqb (join_clause id table) []).

Definition joined_tables (id : Z) (e w : text) (no_test : bool)
           (cls : list Z) : list text :=
  filter (emits_join id) (query_tables e w no_test cls).

(** The names a table of the loop of [build_query] can have. *)
Definition table_shape (t : text) : Prop :=
  t = txt "pdm_candidates" \/ t = txt "headers" \/
  t = txt "pdm_classifications" \/
  exists ds, t = txt "rat" ++ ds /\ Forall (fun c => is_digit c = true) ds.

(** The join set as the specification words it: a source is required
    when the expression or the filter holds a reference to it in its
    canonical dotted form, or when a flag forces it, and the joined tables
    are to be exactly the required sources. *)
Definition refers (s table : text) : Prop := substring (table ++ txt ".") s.

Definition required_source (e w : text) (no_test : bool) (cls : list Z)
           (t : text) : Prop :=
  (t = txt "pdm_candidates" /\ (refers e t \/ refers w t)) \/
  (t = txt "headers" /\ (refers e t \/ refers w t \/ no_test = true)) \/
  (t = txt "pdm_classifications" /\ cls <> []) \/
  (exists ds, Forall (fun c => is_digit c = true) ds /\ t = txt "rat" ++ ds /\
              (refers e t \/ refers w t)).



(** ** Report buckets

    The histogram calls one bucket gives rise to: none when the store
    returned nothing, one otherwise. *)
Definition bucket_hist {value : Type} (ratings : list value) (numbins : Z)
           (edgecolor caption : text) (norm : bool)
  : list (plot_call value) :=
  match ratings with
  | [] => []
  | _ :: _ =>
      [Hist ratings numbins edgecolor
            (caption ++ txt " (" ++ str_of_nat (length ratings) ++ txt ")")
            norm]
  end.

(** The labels of the histograms among plotting calls. *)
Definition hist_labels {value} (calls : list (plot_call value)) : list text :=
  concat (map (fun c => match c with
                        | Hist _ _ _ label _ => [label]
                        | _ => []
                        end) calls).

(** A store that answers the four queries of a report with 100, 10, 5 and
    0 values. *)
Definition sample_answer (query : text) (calls : nat) : list Z * nat :=
  (repeat 0%Z (nth calls [100; 10; 5; 0] 0), S calls).

(** ** Shorthand and canonical form

    The three patterns of [prep_composite_rating] have one form: a tag,
    an opening brace, a starred class in the group, a closing brace. *)
Definition brace_pattern (tag : ascii) (cs : cset) : regex :=
  Regex [One (CChar tag); One (CChar "{")] [Star cs] [One (CChar "}")].

Definition starts_open (s : text) : bool :=
  match s with
  | c :: _ => Ascii.eqb c "{"
  | [] => false
  end.

(** *** Shorthand shapes

    A string holds the shape of a field reference when a tag and an
    opening brace are followed by a closing brace further on, and the shape
    of a rating reference when only digits stand between the braces. *)

Definition field_shape (tag : ascii) (s : text) : Prop :=
  exists pre f post, s = pre ++ tag :: "{" :: f ++ "}" :: post.

Definition rating_shape (s : text) : Prop :=
  exists pre d post,
    s = pre ++ "r" :: "{" :: d ++ "}" :: post /\
    Forall (fun c => is_digit c = true) d.

Definition has_shorthand (s : text) : Prop :=
  field_shape "c" s \/ field_shape "h" s \/ rating_shape s.

(** *** Well-formed expressions

    An expression as the user writes it: literal text and references.
    It is well formed when the literal text holds no opening brace, the
    field names hold no brace, and the rating ids are strings of digits. *)

Inductive token : Type :=
| Lit (t : text)
| CRef (field : text)      (* c{field} *)
| HRef (field : text)      (* h{field} *)
| RRef (digits : text).    (* r{digits} *)

Definition render_token (tok : token) : text :=
  match tok with
  | Lit t => t
  | CRef f => "c" :: "{" :: f ++ "}" :: []
  | HRef f => "h" :: "{" :: f ++ "}" :: []
  | RRef d => "r" :: "{" :: d ++ "}" :: []
  end.

Definition render (toks : list token) : text :=
  concat (map render_token toks).

Definition canonical_token (tok : token) : text :=
  match tok with
  | Lit t => t
  | CRef f => txt "pdm_candidates." ++ f
  | HRef f => txt "headers." ++ f
  | RRef d => txt "rat" ++ d ++ txt ".value"
  end.

(** The canonical dotted form of an expression. *)
Definition canonical (toks : list token) : text :=
  concat (map canonical_token toks).

Definition no_open (t : text) : bool :=
  forallb (fun c => negb (Ascii.eqb c "{")) t.

Definition no_brace (t : text) : bool :=
  forallb (fun c => negb (Ascii.eqb c "{") && negb (Ascii.eqb c "}")) t.

Definition well_formed_token (tok : token) : bool :=
  match tok with
  | Lit t => no_open t
  | CRef f | HRef f => no_brace f
  | RRef d => forallb is_digit d
  end.

Definition well_formed (toks : list token) : bool :=
  forallb well_formed_token toks.

(** One pass of the rewriter on tokens: the references with the tag of
    the pass become literal text. *)
Definition pass_token (tag : ascii) (template : list repl_item)
           (tok : token) : token :=
  match tok with
  | Lit t => Lit t
  | CRef f => if Ascii.eqb tag "c" then Lit (expand template f) else tok
  | HRef f => if Ascii.eqb tag "h" then Lit (expand template f) else tok
  | RRef d => if Ascii.eqb tag "r" then Lit (expand template d) else tok
  end.

(** *** Expressions without the letter r outside rating references

    In the canonical form of such an expression the only places where the
    pattern of [get_tables] can match are the rating aliases. *)

Definition no_r (t : text) : bool :=
  forallb (fun c => negb (Ascii.eqb c "r")) t.

Definition plain_token (tok : token) : bool :=
  match tok with
  | Lit t | CRef t | HRef t => no_r t
  | RRef _ => true
  end.

(** The rating ids an expression refers to, in their order. *)
Definition rating_ids (toks : list token) : list text :=
  concat (map (fun tok => match tok with RRef d => [d] | _ => [] end) toks).

(** * Properties *)

(** ** Strings *)

Lemma startswith_spec (p s : text) :
  startswith p s = true <-> exists post, s = p ++ post.
Proof.
  revert s; induction p as [|x p IH]; intros s; simpl.
  - split; [intros _; now exists s | reflexivity].
  - destruct s as [|y s].
    + split; [discriminate | intros [post H]; discriminate].
    + rewrite andb_true_iff, Ascii.eqb_eq, IH. split.
      * intros [-> [post ->]]. now exists post.
      * intros [post H]. injection H as -> ->. split; [reflexivity | now exists post].
Qed.

Lemma contains_spec (p s : text) :
  contains p s = true <-> substring p s.
Proof.
  unfold substring. induction s as [|y s IH].
  - simpl. rewrite orb_false_r, startswith_spec. split.
    + intros [post H]. now exists [], post.
    + intros [pre [post H]]. destruct pre; [now exists post | discriminate].
  - simpl. rewrite orb_true_iff, startswith_spec, IH. split.
    + intros [[post H] | [pre [post H]]].
      * now exists [], post.
      * exists (y :: pre), post. simpl. now rewrite H.
    + intros [pre [post H]]. destruct pre as [|z pre].
      * left. now exists post.
      * right. injection H as _ H. now exists pre, post.
Qed.

Lemma substring_app_l (p a b : text) : substring p a -> substring p (a ++ b).
Proof.
  intros [pre [post ->]]. exists pre, (post ++ b). now rewrite <- !app_assoc.
Qed.

Lemma substring_app_r (p a b : text) : substring p b -> substring p (a ++ b).
Proof.
  intros [pre [post ->]]. exists (a ++ pre), post. now rewrite <- !app_assoc.
Qed.

Lemma substring_In (c : ascii) (p s : text) :
  In c p -> substring p s -> In c s.
Proof.
  intros Hc [pre [post ->]]. rewrite !in_app_iff. auto.
Qed.

Lemma text_eqb_eq (a b : text) : text_eqb a b = true <-> a = b.
Proof.
  unfold text_eqb. destruct (text_eq_dec a b); split; congruence.
Qed.

Lemma text_eqb_refl (a : text) : text_eqb a a = true.
Proof. now apply text_eqb_eq. Qed.

Lemma text_eqb_neq (a b : text) : text_eqb a b = false <-> a <> b.
Proof.
  unfold text_eqb. destruct (text_eq_dec a b); split; congruence.
Qed.

Lemma mem_spec (t : text) (l : list text) : mem t l = true <-> In t l.
Proof.
  unfold mem. rewrite existsb_exists. split.
  - intros [x [Hx Heq]]. apply text_eqb_eq in Heq. now subst.
  - intros H. exists t. split; [assumption | apply text_eqb_refl].
Qed.

(** ** The order on strings *)

Lemma text_compare_eq (a b : text) : text_compare a b = Eq <-> a = b.
Proof.
  revert b; induction a as [|x a IH]; intros [|y b]; simpl;
    try (split; [discriminate | discriminate]); [tauto |].
  destruct (Nat.compare_spec (nat_of_ascii x) (nat_of_ascii y)) as [E | L | L].
  - rewrite IH. split.
    + intros ->. f_equal.
      rewrite <- (ascii_nat_embedding x), <- (ascii_nat_embedding y).
      now rewrite E.
    + intros H. now injection H.
  - split; [discriminate | intros H; injection H as -> _; lia].
  - split; [discriminate | intros H; injection H as -> _; lia].
Qed.

Lemma text_compare_antisym (a b : text) :
  text_compare b a = CompOpp (text_compare a b).
Proof.
  revert b; induction a as [|x a IH]; intros [|y b]; simpl; try reflexivity.
  rewrite (Nat.compare_antisym (nat_of_ascii x) (nat_of_ascii y)).
  destruct (Nat.compare (nat_of_ascii x) (nat_of_ascii y)); simpl; auto.
Qed.

Lemma text_lt_trans (a b c : text) : text_lt a b -> text_lt b c -> text_lt a c.
Proof.
  unfold text_lt. revert b c; induction a as [|x a IH]; intros [|y b] [|z c];
    simpl; try discriminate; try reflexivity.
  destruct (Nat.compare_spec (nat_of_ascii x) (nat_of_ascii y)) as [E | L | L];
    destruct (Nat.compare_spec (nat_of_ascii y) (nat_of_ascii z)) as [E' | L' | L'];
    try discriminate; intros H1 H2.
  - rewrite E, E', Nat.compare_refl. eauto.
  - rewrite E. now apply Nat.compare_lt_iff in L' as ->.
  - rewrite <- E'. now apply Nat.compare_lt_iff in L as ->.
  - assert (L'' : nat_of_ascii x < nat_of_ascii z) by lia.
    now apply Nat.compare_lt_iff in L'' as ->.
Qed.

Lemma text_lt_irrefl (a : text) : ~ text_lt a a.
Proof.
  unfold text_lt. intros H.
  assert (E : text_compare a a = Eq) by now apply text_compare_eq.
  congruence.
Qed.

Lemma text_leb_lt (a b : text) : text_leb a b = true -> a <> b -> text_lt a b.
Proof.
  unfold text_leb, text_lt. intros H Hne.
  destruct (text_compare a b) eqn:E; try congruence.
  now apply text_compare_eq in E.
Qed.

Lemma text_leb_false_lt (a b : text) : text_leb a b = false -> text_lt b a.
Proof.
  unfold text_leb, text_lt. intros H. rewrite text_compare_antisym.
  destruct (text_compare a b); try discriminate. reflexivity.
Qed.

(** ** [sorted] and [list_set] *)

Lemma insert_sorted_In (x t : text) (l : list text) :
  In x (insert_sorted t l) <-> x = t \/ In x l.
Proof.
  induction l as [|u l IH]; simpl.
  - intuition congruence.
  - destruct (text_leb t u); simpl; rewrite ?IH; intuition congruence.
Qed.

Lemma sorted_In (x : text) (l : list text) : In x (sorted l) <-> In x l.
Proof.
  induction l as [|t l IH]; simpl; [tauto |].
  rewrite insert_sorted_In, IH. intuition congruence.
Qed.

Lemma insert_sorted_Permutation (t : text) (l : list text) :
  Permutation (t :: l) (insert_sorted t l).
Proof.
  induction l as [|u l IH]; simpl; [constructor; constructor |].
  destruct (text_leb t u); [apply Permutation_refl |].
  eapply perm_trans; [apply perm_swap | now constructor].
Qed.

Lemma sorted_is_Permutation (l : list text) : Permutation l (sorted l).
Proof.
  induction l as [|t l IH]; simpl; [constructor |].
  eapply perm_trans; [| apply insert_sorted_Permutation]. now constructor.
Qed.

Lemma sorted_NoDup (l : list text) : NoDup l -> NoDup (sorted l).
Proof.
  intros H. eapply Permutation_NoDup; [apply sorted_is_Permutation | exact H].
Qed.

Lemma insert_sorted_strongly (t : text) (l : list text) :
  StronglySorted text_lt l -> ~ In t l ->
  StronglySorted text_lt (insert_sorted t l).
Proof.
  induction l as [|u l IH]; simpl; intros Hs Hn.
  - constructor; constructor.
  - inversion Hs as [|? ? Hs' Hall]; subst.
    destruct (text_leb t u) eqn:E.
    + assert (Htu : text_lt t u) by (apply text_leb_lt; intuition congruence).
      constructor; [assumption |]. constructor; [assumption |].
      eapply Forall_impl; [| exact Hall]. intros a Ha.
      eapply text_lt_trans; eassumption.
    + constructor; [apply IH; intuition |].
      apply Forall_forall. intros a Ha. apply insert_sorted_In in Ha as [-> | Ha].
      * now apply text_leb_false_lt.
      * rewrite Forall_forall in Hall. auto.
Qed.

Lemma sorted_strongly (l : list text) :
  NoDup l -> StronglySorted text_lt (sorted l).
Proof.
  induction 1 as [|t l Hn Hd IH]; simpl; [constructor |].
  apply insert_sorted_strongly; [assumption | now rewrite sorted_In].
Qed.

Lemma strongly_sorted_NoDup (l : list text) :
  StronglySorted text_lt l -> NoDup l.
Proof.
  induction 1 as [|t l Hs IH Hall]; constructor; [| assumption].
  intros Hin. rewrite Forall_forall in Hall.
  exact (text_lt_irrefl t (Hall t Hin)).
Qed.

(** Two strictly ascending lists with the same elements are equal: what
    [sorted] returns does not depend on the order of its argument. *)
Lemma strongly_sorted_unique (l1 l2 : list text) :
  StronglySorted text_lt l1 -> StronglySorted text_lt l2 ->
  (forall x, In x l1 <-> In x l2) -> l1 = l2.
Proof.
  intros H1; revert l2; induction H1 as [|a l1 Hs1 IH Ha]; intros l2 H2 Heq.
  - destruct l2 as [|b l2]; [reflexivity |].
    exfalso. apply (Heq b). now left.
  - destruct H2 as [|b l2 Hs2 Hb].
    + exfalso. apply (Heq a). now left.
    + rewrite Forall_forall in Ha, Hb.
      assert (a = b) as ->.
      { destruct (proj1 (Heq a) (or_introl eq_refl)) as [E | Hin]; [congruence |].
        destruct (proj2 (Heq b) (or_introl eq_refl)) as [E | Hin']; [congruence |].
        exfalso. apply (text_lt_irrefl a).
        eapply text_lt_trans; [apply Ha, Hin' | apply Hb, Hin]. }
      f_equal. apply IH; [assumption |]. intros x. split; intros Hx.
      * destruct (proj1 (Heq x) (or_intror Hx)) as [E | Hin]; [| assumption].
        subst. exfalso. exact (text_lt_irrefl x (Ha x Hx)).
      * destruct (proj2 (Heq x) (or_intror Hx)) as [E | Hin]; [| assumption].
        subst. exfalso. exact (text_lt_irrefl x (Hb x Hx)).
Qed.

Lemma sorted_Permutation (l1 l2 : list text) :
  NoDup l1 -> Permutation l1 l2 -> sorted l1 = sorted l2.
Proof.
  intros Hd Hp. apply strongly_sorted_unique.
  - now apply sorted_strongly.
  - apply sorted_strongly. eapply Permutation_NoDup; eassumption.
  - intros x. rewrite !sorted_In. split; apply Permutation_in;
      [assumption | now apply Permutation_sym].
Qed.

Lemma list_set_In (x : text) (l : list text) : In x (list_set l) <-> In x l.
Proof. apply nodup_In. Qed.

Lemma list_set_NoDup (l : list text) : NoDup (list_set l).
Proof. apply NoDup_nodup. Qed.

(** ** The matcher *)

Lemma matches_min_length (atoms : list atom) (m : text) :
  matches atoms m -> min_length atoms <= length m.
Proof.
  induction 1; simpl; [lia | lia |]. rewrite length_app. lia.
Qed.

Section MatcherFacts.
Context {R : Type}.

Lemma star_k_sound (p : ascii -> bool) (s : text) (k : text -> option R)
      (r : R) :
  star_k p s k = Some r ->
  exists ds s', s = ds ++ s' /\ Forall (fun c => p c = true) ds /\ k s' = Some r.
Proof.
  induction s as [|c s IH]; simpl; intros H.
  - now exists [], [].
  - destruct (p c) eqn:Hc; [| now exists [], (c :: s)].
    destruct (star_k p s k) as [r'|] eqn:Hs.
    + injection H as ->. destruct (IH eq_refl) as [ds [s' [-> [Hall Hk]]]].
      exists (c :: ds), s'. auto.
    + now exists [], (c :: s).
Qed.

Lemma match_k_sound (atoms : list atom) (s : text) (k : text -> option R)
      (r : R) :
  match_k atoms s k = Some r ->
  exists m s', s = m ++ s' /\ matches atoms m /\ k s' = Some r.
Proof.
  revert s k; induction atoms as [|[cs | cs] atoms IH]; simpl; intros s k H.
  - exists [], s. repeat split; [constructor | assumption].
  - destruct s as [|c s]; [discriminate |].
    destruct (in_cset cs c) eqn:Hc; [| discriminate].
    destruct (IH _ _ H) as [m [s' [-> [Hm Hk]]]].
    exists (c :: m), s'. repeat split; [now constructor | assumption].
  - destruct (star_k_sound _ _ _ _ H) as [ds [s1 [-> [Hall H1]]]].
    destruct (IH _ _ H1) as [m [s' [-> [Hm Hk]]]].
    exists (ds ++ m), s'. rewrite <- app_assoc.
    repeat split; [now constructor | assumption].
Qed.
End MatcherFacts.

Lemma firstn_app_exact {A} (m s : list A) :
  firstn (length (m ++ s) - length s) (m ++ s) = m.
Proof.
  rewrite length_app, Nat.add_sub. rewrite firstn_app, Nat.sub_diag, firstn_all.
  simpl. apply app_nil_r.
Qed.

(** A successful [re_match] splits the input into what the three parts of
    the pattern accept and the rest. *)
Lemma re_match_sound (r : regex) (s g rest : text) :
  re_match r s = Some (g, rest) ->
  exists m1 m3, s = m1 ++ g ++ m3 ++ rest /\
    matches (re_pre r) m1 /\ matches (re_group r) g /\ matches (re_post r) m3.
Proof.
  unfold re_match. intros H.
  apply match_k_sound in H as [m1 [s1 [-> [H1 H]]]].
  apply match_k_sound in H as [m2 [s2 [-> [H2 H]]]].
  apply match_k_sound in H as [m3 [s3 [-> [H3 H]]]].
  rewrite firstn_app_exact in H. injection H as <- <-.
  exists m1, m3. auto.
Qed.

Lemma re_match_shorter (r : regex) (s g rest : text) :
  consuming r -> re_match r s = Some (g, rest) -> length rest < length s.
Proof.
  unfold consuming. intros Hc H.
  apply re_match_sound in H as [m1 [m3 [-> [H1 [H2 H3]]]]].
  apply matches_min_length in H1, H2, H3. rewrite !length_app. lia.
Qed.

(** *** The scans do not run out of steps *)

Lemma sub_from_enough (r : regex) (template : list repl_item) :
  consuming r ->
  forall fuel s, length s <= fuel ->
    sub_from fuel r template s = sub_from (length s) r template s.
Proof.
  intros Hc fuel. induction fuel as [fuel IH] using lt_wf_ind. intros s Hle.
  destruct s as [|c s]; [now destruct fuel |].
  destruct fuel as [|fuel]; [simpl in Hle; lia |].
  simpl in Hle. cbn [length sub_from].
  destruct (re_match r (c :: s)) as [[g rest]|] eqn:Hm.
  - pose proof (re_match_shorter _ _ _ _ Hc Hm) as Hlt. simpl in Hlt.
    rewrite (IH fuel) by lia. now rewrite (IH (length s)) by lia.
  - now rewrite (IH fuel) by lia.
Qed.

Lemma re_sub_nil (r : regex) (template : list repl_item) :
  re_sub r template [] = [].
Proof. reflexivity. Qed.

Lemma re_sub_cons (r : regex) (template : list repl_item) (c : ascii)
      (s : text) :
  consuming r ->
  re_sub r template (c :: s) =
  match re_match r (c :: s) with
  | Some (g, rest) => expand template g ++ re_sub r template rest
  | None => c :: re_sub r template s
  end.
Proof.
  intros Hc. unfold re_sub. cbn [length sub_from].
  destruct (re_match r (c :: s)) as [[g rest]|] eqn:Hm; [| reflexivity].
  pose proof (re_match_shorter _ _ _ _ Hc Hm) as Hlt. simpl in Hlt.
  now rewrite (sub_from_enough r template Hc (length s) rest) by lia.
Qed.

Lemma findall_from_enough (r : regex) :
  consuming r ->
  forall fuel s, length s <= fuel ->
    findall_from fuel r s = findall_from (length s) r s.
Proof.
  intros Hc fuel. induction fuel as [fuel IH] using lt_wf_ind. intros s Hle.
  destruct s as [|c s]; [now destruct fuel |].
  destruct fuel as [|fuel]; [simpl in Hle; lia |].
  simpl in Hle. cbn [length findall_from].
  destruct (re_match r (c :: s)) as [[g rest]|] eqn:Hm.
  - pose proof (re_match_shorter _ _ _ _ Hc Hm) as Hlt. simpl in Hlt.
    rewrite (IH fuel) by lia. now rewrite (IH (length s)) by lia.
  - now rewrite (IH fuel) by lia.
Qed.

Lemma re_findall_cons (r : regex) (c : ascii) (s : text) :
  consuming r ->
  re_findall r (c :: s) =
  match re_match r (c :: s) with
  | Some (g, rest) => g :: re_findall r rest
  | None => re_findall r s
  end.
Proof.
  intros Hc. unfold re_findall. cbn [length findall_from].
  destruct (re_match r (c :: s)) as [[g rest]|] eqn:Hm; [| reflexivity].
  pose proof (re_match_shorter _ _ _ _ Hc Hm) as Hlt. simpl in Hlt.
  now rewrite (findall_from_enough r Hc (length s) rest) by lia.
Qed.

Lemma field_pattern_consuming (tag : ascii) : consuming (field_pattern tag).
Proof. unfold consuming; simpl; lia. Qed.

Lemma rating_pattern_consuming : consuming rating_pattern.
Proof. unfold consuming; simpl; lia. Qed.

Lemma alias_pattern_consuming : consuming alias_pattern.
Proof. unfold consuming; simpl; lia. Qed.

(** ** The table extractor *)

(** Every group [re_findall] returns was matched somewhere in the input. *)
Lemma re_findall_sound (r : regex) :
  consuming r ->
  forall s g, In g (re_findall r s) ->
    exists pre m1 m3 post, s = pre ++ m1 ++ g ++ m3 ++ post /\
      matches (re_pre r) m1 /\ matches (re_group r) g /\ matches (re_post r) m3.
Proof.
  intros Hc s. remember (length s) as n eqn:Hn. revert s Hn.
  induction n as [n IH] using lt_wf_ind. intros [|c s] Hn g Hin.
  - contradiction.
  - rewrite re_findall_cons in Hin by assumption. simpl in Hn.
    destruct (re_match r (c :: s)) as [[g' rest]|] eqn:Hm.
    + destruct Hin as [<- | Hin].
      * apply re_match_sound in Hm as [m1 [m3 [E [H1 [H2 H3]]]]].
        exists [], m1, m3, rest. auto.
      * pose proof (re_match_shorter _ _ _ _ Hc Hm) as Hlt. simpl in Hlt.
        destruct (IH (length rest) ltac:(lia) rest eq_refl g Hin)
          as [pre [m1 [m3 [post [E [H1 [H2 H3]]]]]]].
        apply re_match_sound in Hm as [n1 [n3 [E' _]]].
        exists (n1 ++ g' ++ n3 ++ pre), m1, m3, post.
        rewrite E'. rewrite E at 1. rewrite <- !app_assoc. auto.
    + destruct (IH (length s) ltac:(lia) s eq_refl g Hin)
        as [pre [m1 [m3 [post [E [H1 [H2 H3]]]]]]].
      exists (c :: pre), m1, m3, post. simpl. rewrite <- E. auto.
Qed.

(** What the group of the alias pattern accepts: [rat] and digits. *)
Lemma alias_group_matches (g : text) :
  matches (re_group alias_pattern) g ->
  exists ds, g = txt "rat" ++ ds /\ Forall (fun c => is_digit c = true) ds.
Proof.
  simpl. intros H.
  inversion H as [| ? c1 ? m1 Hc1 H1 |]; subst; clear H.
  inversion H1 as [| ? c2 ? m2 Hc2 H2 |]; subst; clear H1.
  inversion H2 as [| ? c3 ? m3 Hc3 H3 |]; subst; clear H2.
  inversion H3 as [| | ? ds ? m4 Hds H4]; subst; clear H3.
  inversion H4; subst; clear H4.
  simpl in Hc1, Hc2, Hc3. apply Ascii.eqb_eq in Hc1, Hc2, Hc3. subst.
  exists ds. rewrite app_nil_r. split; [reflexivity | exact Hds].
Qed.

Lemma alias_findall_sound (s g : text) :
  In g (re_findall alias_pattern s) ->
  substring g s /\
  exists ds, g = txt "rat" ++ ds /\ Forall (fun c => is_digit c = true) ds.
Proof.
  intros H.
  apply (re_findall_sound _ alias_pattern_consuming) in H
    as [pre [m1 [m3 [post [E [H1 [H2 H3]]]]]]].
  split; [| now apply alias_group_matches].
  exists (pre ++ m1), (m3 ++ post). now rewrite <- !app_assoc.
Qed.

Lemma get_tables_In (s t : text) :
  In t (get_tables s) <->
  (t = txt "pdm_candidates" /\ substring (txt "pdm_candidates.") s) \/
  (t = txt "headers" /\ substring (txt "headers.") s) \/
  In t (re_findall alias_pattern s).
Proof.
  unfold get_tables. rewrite sorted_In, list_set_In, in_app_iff.
  rewrite <- !contains_spec.
  destruct (contains (txt "pdm_candidates.") s);
    destruct (contains (txt "headers.") s); simpl;
    intuition (try discriminate; try congruence; auto).
Qed.

Lemma get_tables_sorted (s : text) : StronglySorted text_lt (get_tables s).
Proof. unfold get_tables. apply sorted_strongly, list_set_NoDup. Qed.


(** A table of [get_tables] is one of the two fixed names or an alias. *)
Lemma get_tables_shape (s t : text) :
  In t (get_tables s) ->
  t = txt "pdm_candidates" \/ t = txt "headers" \/
  exists ds, t = txt "rat" ++ ds /\ Forall (fun c => is_digit c = true) ds.
Proof.
  rewrite get_tables_In. intros [[-> _] | [[-> _] | H]]; auto.
  right; right. now apply alias_findall_sound in H.
Qed.


(** ** The query builder *)

(** Appending a missing table and sorting again. *)
Lemma add_table_In (x t : text) (tables : list text) :
  In t (if negb (mem x tables) then sorted (tables ++ [x]) else tables) <->
  In t tables \/ t = x.
Proof.
  destruct (mem x tables) eqn:E; simpl.
  - apply mem_spec in E. split; [auto | intros [H | ->]; assumption].
  - rewrite sorted_In, in_app_iff. simpl. intuition congruence.
Qed.

Lemma add_table_sorted (x : text) (tables : list text) :
  StronglySorted text_lt tables ->
  StronglySorted text_lt
    (if negb (mem x tables) then sorted (tables ++ [x]) else tables).
Proof.
  intros Hs. destruct (mem x tables) eqn:E; simpl; [assumption |].
  apply sorted_strongly. apply NoDup_app; repeat split.
  - now apply strongly_sorted_NoDup.
  - constructor; [intros [] | constructor].
  - intros a Ha [<- | []]. apply mem_spec in Ha. congruence.
Qed.

Lemma query_tables_In (e w : text) (no_test : bool) (cls : list Z) (t : text) :
  In t (query_tables e w no_test cls) <->
  In t (get_tables e) \/ In t (get_tables w) \/
  (no_test = true /\ t = txt "headers") \/
  (cls <> [] /\ t = txt "pdm_classifications").
Proof.
  unfold query_tables.
  set (T0 := sorted (list_set (get_tables w ++ get_tables e))).
  assert (H0 : In t T0 <-> In t (get_tables e) \/ In t (get_tables w)).
  { unfold T0. rewrite sorted_In, list_set_In, in_app_iff. tauto. }
  set (T1 := if no_test then _ else T0).
  assert (H1 : In t T1 <-> In t T0 \/ (no_test = true /\ t = txt "headers")).
  { unfold T1. destruct no_test; [rewrite add_table_In |].
    - split; [intros [H | H]; auto | intros [H | [_ H]]; auto].
    - split; [auto | intros [H | [H _]]; [assumption | discriminate]]. }
  assert (H2 : (0 <? length cls)%nat = true <-> cls <> []).
  { destruct cls; simpl; split; intros H; try discriminate; try reflexivity.
    now contradiction H. }
  destruct (0 <? length cls)%nat eqn:E.
  - rewrite add_table_In, H1, H0. intuition.
  - rewrite H1, H0. intuition congruence.
Qed.

Lemma query_tables_sorted (e w : text) (no_test : bool) (cls : list Z) :
  StronglySorted text_lt (query_tables e w no_test cls).
Proof.
  unfold query_tables.
  set (T0 := sorted (list_set (get_tables w ++ get_tables e))).
  assert (H0 : StronglySorted text_lt T0)
    by (apply sorted_strongly, list_set_NoDup).
  set (T1 := if no_test then _ else T0).
  assert (H1 : StronglySorted text_lt T1)
    by (unfold T1; destruct no_test; [now apply add_table_sorted | assumption]).
  destruct (0 <? length cls)%nat; [now apply add_table_sorted | assumption].
Qed.

Lemma fold_left_app_concat {A} (f : A -> text) (l : list A) (q : text) :
  fold_left (fun query x => query ++ f x) l q = q ++ concat (map f l).
Proof.
  revert q; induction l as [|x l IH]; intros q; simpl.
  - now rewrite app_nil_r.
  - now rewrite IH, <- app_assoc.
Qed.

(** The query is the SELECT head, the join clauses of the tables in their
    order, the WHERE clause with its optional restrictions, and HAVING. *)
Lemma build_query_eq (id : Z) (e w : text) (no_test : bool) (cls : list Z) :
  build_query id e w no_test cls =
  (txt "SELECT " ++ e ++ txt " AS composite_rating FROM pdm_candidates ") ++
  concat (map (join_clause id) (query_tables e w no_test cls)) ++
  (txt "WHERE " ++ w ++ txt " ") ++
  (if no_test then txt " AND headers.source_name LIKE 'G%' " else []) ++
  (if (0 <? length cls)%nat
   then txt " AND pdm_classifications.rank IN (" ++
        join (txt ",") (map str_of_Z cls) ++ txt ") "
   else []) ++
  txt " HAVING composite_rating IS NOT NULL".
Proof.
  transitivity
    (let query :=
       fold_left (fun query table => query ++ join_clause id table)
                 (query_tables e w no_test cls)
                 (txt "SELECT " ++ e ++
                  txt " AS composite_rating FROM pdm_candidates ") in
     let query := query ++ (txt "WHERE " ++ w ++ txt " ") in
     let query :=
       if no_test then query ++ txt " AND headers.source_name LIKE 'G%' "
       else query in
     let query :=
       if (0 <? length cls)%nat then
         query ++ (txt " AND pdm_classifications.rank IN (" ++
                   join (txt ",") (map str_of_Z cls) ++ txt ") ")
       else query in
     query ++ txt " HAVING composite_rating IS NOT NULL");
    [reflexivity |].
  cbv zeta. rewrite fold_left_app_concat.
  generalize (query_tables e w no_test cls). intros T.
  destruct no_test; destruct (0 <? length cls)%nat;
    rewrite <- ?app_assoc; simpl; rewrite <- ?app_assoc; reflexivity.
Qed.

(** Which tables add a clause, and which clause. *)
Lemma join_clause_headers (id : Z) :
  join_clause id (txt "headers") =
  txt " LEFT JOIN headers ON  headers.header_id = pdm_candidates.header_id ".
Proof. reflexivity. Qed.

Lemma join_clause_candidates (id : Z) :
  join_clause id (txt "pdm_candidates") = [].
Proof. reflexivity. Qed.

Lemma join_clause_classifications (id : Z) :
  join_clause id (txt "pdm_classifications") =
  txt " LEFT JOIN pdm_classifications ON " ++
  txt " pdm_candidates.pdm_cand_id = pdm_classifications.pdm_cand_id AND" ++
  txt " pdm_classifications.pdm_class_type_id = " ++ str_of_Z id ++
  txt " AND  pdm_classifications.who = 'PL' ".
Proof.
  unfold join_clause. cbn [text_eqb]. 
  replace (text_eqb (txt "pdm_classifications") (txt "headers")) with false
    by reflexivity.
  rewrite text_eqb_refl. rewrite <- !app_assoc. reflexivity.
Qed.

Lemma join_clause_alias (id : Z) (ds : text) :
  join_clause id (txt "rat" ++ ds) =
  txt " LEFT JOIN ratings AS rat" ++ ds ++ txt " ON  rat" ++ ds ++
  txt ".pdm_cand_id = pdm_candidates.pdm_cand_id AND  rat" ++ ds ++
  txt ".rating_id = " ++ ds ++ txt " ".
Proof.
  unfold join_clause.
  replace (text_eqb (txt "rat" ++ ds) (txt "headers")) with false
    by (symmetry; apply text_eqb_neq; discriminate).
  replace (text_eqb (txt "rat" ++ ds) (txt "pdm_classifications")) with false
    by (symmetry; apply text_eqb_neq; discriminate).
  simpl. rewrite <- !app_assoc. reflexivity.
Qed.

Lemma concat_map_filter_nonempty (f : text -> text) (l : list text) :
  concat (map f (filter (fun t => negb (text_eqb (f t) [])) l)) =
  concat (map f l).
Proof.
  induction l as [|t l IH]; simpl; [reflexivity |].
  destruct (text_eqb (f t) []) eqn:E; simpl.
  - apply text_eqb_eq in E. now rewrite E, IH.
  - now rewrite IH.
Qed.


Lemma emits_join_query_table (id : Z) (e w : text) (no_test : bool)
      (cls : list Z) (t : text) :
  In t (query_tables e w no_test cls) ->
  emits_join id t = true <-> t <> txt "pdm_candidates".
Proof.
  intros Hin. unfold emits_join. rewrite negb_true_iff, text_eqb_neq.
  apply query_tables_In in Hin.
  assert (Hshape : t = txt "pdm_candidates" \/ t = txt "headers" \/
                   t = txt "pdm_classifications" \/
                   exists ds, t = txt "rat" ++ ds).
  { destruct Hin as [H | [H | [[_ ->] | [_ ->]]]]; auto;
      apply get_tables_shape in H as [-> | [-> | [ds [-> _]]]]; eauto. }
  destruct Hshape as [-> | [-> | [-> | [ds ->]]]].
  - rewrite join_clause_candidates. tauto.
  - rewrite join_clause_headers. split; discriminate.
  - rewrite join_clause_classifications. split; discriminate.
  - rewrite join_clause_alias. split; discriminate.
Qed.

Lemma count_occ_map_at {A B} (decA : forall x y : A, {x = y} + {x <> y})
      (decB : forall x y : B, {x = y} + {x <> y}) (f : A -> B) (a : A)
      (l : list A) :
  (forall t, In t l -> f t = f a -> t = a) ->
  count_occ decB (map f l) (f a) = count_occ decA l a.
Proof.
  induction l as [|t l IH]; simpl; intros Hinj; [reflexivity |].
  destruct (decB (f t) (f a)) as [E | N]; destruct (decA t a) as [E' | N'].
  - f_equal. apply IH. auto.
  - exfalso. apply N'. apply Hinj; auto.
  - subst. congruence.
  - apply IH. auto.
Qed.

Lemma join_clause_headers_inv (id : Z) (t : text) :
  join_clause id t = join_clause id (txt "headers") -> t = txt "headers".
Proof.
  rewrite join_clause_headers. unfold join_clause.
  destruct (text_eqb t (txt "headers")) eqn:E1; [now apply text_eqb_eq in E1 |].
  destruct (text_eqb t (txt "pdm_classifications")); [discriminate |].
  destruct (startswith (txt "rat") t); discriminate.
Qed.

(** *** A join clause names its table

    The clauses of two different tables of the loop differ, so the list of
    clauses that makes up the join part of the query repeats none. *)

Lemma app_first_char (c : ascii) (f g a b : text) :
  ~ In c f -> ~ In c g -> f ++ c :: a = g ++ c :: b -> f = g.
Proof.
  revert g; induction f as [|x f IH]; intros [|y g] Hf Hg E; simpl in *.
  - reflexivity.
  - injection E as <- _. exfalso. apply Hg. now left.
  - injection E as -> _. exfalso. apply Hf. now left.
  - injection E as -> E. f_equal. apply (IH g); auto.
Qed.

Lemma digits_no_space (ds : text) :
  Forall (fun c => is_digit c = true) ds -> ~ In " " ds.
Proof.
  intros H Hin. rewrite Forall_forall in H. apply H in Hin. discriminate.
Qed.

Lemma query_tables_shape (e w : text) (no_test : bool) (cls : list Z)
      (t : text) :
  In t (query_tables e w no_test cls) -> table_shape t.
Proof.
  intros Hin. apply query_tables_In in Hin. unfold table_shape.
  destruct Hin as [H | [H | [[_ ->] | [_ ->]]]]; auto;
    apply get_tables_shape in H as [-> | [-> | [ds [-> Hds]]]]; eauto 6.
Qed.

Lemma join_clause_alias_inj (id : Z) (ds ds' : text) :
  Forall (fun c => is_digit c = true) ds ->
  Forall (fun c => is_digit c = true) ds' ->
  join_clause id (txt "rat" ++ ds) = join_clause id (txt "rat" ++ ds') ->
  ds = ds'.
Proof.
  intros Hds Hds'. rewrite !join_clause_alias. intros H.
  apply app_inv_head in H.
  eapply (app_first_char " "); [| | exact H]; now apply digits_no_space.
Qed.

Lemma join_clause_inj (id : Z) (t t' : text) :
  table_shape t -> table_shape t' -> join_clause id t <> [] ->
  join_clause id t = join_clause id t' -> t = t'.
Proof.
  intros [-> | [-> | [-> | [ds [-> Hds]]]]] [-> | [-> | [-> | [ds' [-> Hds']]]]];
    rewrite ?join_clause_candidates, ?join_clause_headers,
      ?join_clause_classifications;
    intros Hne H; try reflexivity; try congruence; try discriminate;
    try (rewrite join_clause_alias in H; discriminate).
  f_equal. now apply (join_clause_alias_inj id).
Qed.


(** ** Alias detection *)

Section StarFacts.
Context {R : Type}.

(** The star takes nothing where the class does not accept the next
    character, and takes a whole run when the rest of the pattern
    succeeds after it. *)
Lemma star_k_stop (p : ascii -> bool) (s : text) (k : text -> option R) :
  match s with c :: _ => p c = false | [] => True end ->
  star_k p s k = k s.
Proof. destruct s as [|c s]; simpl; [reflexivity | now intros ->]. Qed.

Lemma star_k_greedy (p : ascii -> bool) (f rest : text)
      (k : text -> option R) (r : R) :
  Forall (fun c => p c = true) f -> star_k p rest k = Some r ->
  star_k p (f ++ rest) k = Some r.
Proof.
  induction 1 as [|c f Hc Hf IH]; simpl; intros Hk; [assumption |].
  now rewrite Hc, IH.
Qed.
End StarFacts.

(** The alias pattern at an alias followed by a character that is neither
    a digit nor a newline captures the alias with all its digits. *)
Lemma alias_match_exact (ds post : text) (c : ascii) :
  Forall (fun x => is_digit x = true) ds -> is_digit c = false ->
  c <> "010" ->
  re_match alias_pattern (txt "rat" ++ ds ++ c :: post) =
  Some (txt "rat" ++ ds, post).
Proof.
  intros Hds Hc Hnl. unfold re_match.
  cbn [alias_pattern re_pre re_group re_post].
  cbn [match_k]. set (s := txt "rat" ++ ds ++ c :: post).
  change s with ("r" :: "a" :: "t" :: ds ++ c :: post) at 1.
  cbn [in_cset Ascii.eqb Bool.eqb andb].
  apply star_k_greedy; [assumption |].
  rewrite star_k_stop by assumption.
  assert (E : Ascii.eqb c "010" = false) by now apply Ascii.eqb_neq.
  cbn [in_cset]. rewrite E. cbn [negb]. f_equal. f_equal.
  unfold s. replace (txt "rat" ++ ds ++ c :: post)
    with ((txt "rat" ++ ds) ++ c :: post) by now rewrite <- app_assoc.
  rewrite firstn_app_exact. reflexivity.
Qed.

Lemma alias_match_start (s g rest : text) :
  re_match alias_pattern s = Some (g, rest) ->
  exists s', s = txt "rat" ++ s'.
Proof.
  intros H. apply re_match_sound in H as [m1 [m3 [-> [H1 [H2 _]]]]].
  inversion H1; subst.
  apply alias_group_matches in H2 as [ds [-> _]].
  exists (ds ++ m3 ++ rest). reflexivity.
Qed.

(** Before the first occurrence of [rat] the scan finds nothing. *)
Lemma alias_findall_skip (pre s : text) :
  ~ substring (txt "rat") pre ->
  re_findall alias_pattern (pre ++ txt "rat" ++ s) =
  re_findall alias_pattern (txt "rat" ++ s).
Proof.
  induction pre as [|x pre IH]; intros Hno; [reflexivity |].
  cbn [app]. rewrite re_findall_cons by apply alias_pattern_consuming.
  destruct (re_match alias_pattern (x :: pre ++ txt "rat" ++ s))
    as [[g rest]|] eqn:Hm.
  - exfalso. apply alias_match_start in Hm as [s' E].
    destruct pre as [|y pre]; [discriminate |].
    destruct pre as [|z pre]; [discriminate |].
    apply Hno. injection E as -> -> -> _. now exists [], pre.
  - apply IH. intros [a [b E]]. apply Hno. exists (x :: a), b.
    simpl. now rewrite E.
Qed.



(** ** The token rewriter *)

Lemma field_pattern_brace (tag : ascii) :
  field_pattern tag = brace_pattern tag (CNot "}").
Proof. reflexivity. Qed.

Lemma rating_pattern_brace : rating_pattern = brace_pattern "r" CDigit.
Proof. reflexivity. Qed.

Section BracePattern.
Variable tag : ascii.
Variable cs : cset.
Hypothesis cs_stops : in_cset cs "}" = false.
Variable template : list repl_item.

Let P := brace_pattern tag cs.

Lemma brace_pattern_consuming : consuming P.
Proof. unfold consuming; simpl; lia. Qed.

Lemma brace_match_inv (s g rest : text) :
  re_match P s = Some (g, rest) ->
  s = tag :: "{" :: g ++ "}" :: rest /\
  Forall (fun c => in_cset cs c = true) g.
Proof.
  intros H. apply re_match_sound in H as [m1 [m3 [-> [H1 [H2 H3]]]]].
  simpl in H1, H2, H3.
  inversion H1 as [| ? c1 ? n1 Hc1 H1' |]; subst; clear H1.
  inversion H1' as [| ? c2 ? n2 Hc2 H1'' |]; subst; clear H1'.
  inversion H1''; subst; clear H1''.
  inversion H2 as [| | ? ds ? n3 Hds H2']; subst; clear H2.
  inversion H2'; subst; clear H2'.
  inversion H3 as [| ? c3 ? n4 Hc3 H3' |]; subst; clear H3.
  inversion H3'; subst; clear H3'.
  simpl in Hc1, Hc2, Hc3. apply Ascii.eqb_eq in Hc1, Hc2, Hc3. subst.
  rewrite app_nil_r. split; [reflexivity | assumption].
Qed.

(** At a well-formed reference the group is the whole field. *)
Lemma brace_match_exact (f rest : text) :
  Forall (fun c => in_cset cs c = true) f ->
  re_match P (tag :: "{" :: f ++ "}" :: rest) = Some (f, rest).
Proof.
  intros Hf. unfold re_match, P.
  cbn [brace_pattern re_pre re_group re_post match_k in_cset].
  rewrite Ascii.eqb_refl. cbn [Ascii.eqb Bool.eqb andb].
  apply star_k_greedy; [assumption |].
  rewrite star_k_stop by exact cs_stops.
  cbn [Ascii.eqb Bool.eqb andb]. now rewrite firstn_app_exact.
Qed.

Lemma brace_match_other_tag (c : ascii) (s : text) :
  c <> tag -> re_match P (c :: s) = None.
Proof.
  intros Hc. destruct (re_match P (c :: s)) as [[g rest]|] eqn:Hm;
    [| reflexivity].
  apply brace_match_inv in Hm as [E _]. congruence.
Qed.

Lemma brace_match_no_open (c : ascii) (s : text) :
  starts_open s = false -> re_match P (c :: s) = None.
Proof.
  intros Hs. destruct (re_match P (c :: s)) as [[g rest]|] eqn:Hm;
    [| reflexivity].
  apply brace_match_inv in Hm as [E _]. injection E as _ ->.
  discriminate.
Qed.

(** Text without an opening brace is copied. *)
Lemma re_sub_skip (u s : text) :
  ~ In "{" u -> starts_open s = false ->
  re_sub P template (u ++ s) = u ++ re_sub P template s.
Proof.
  induction u as [|c u IH]; intros Hu Hs; [reflexivity |].
  cbn [app]. rewrite re_sub_cons by apply brace_pattern_consuming.
  rewrite brace_match_no_open.
  - f_equal. apply IH; [| assumption]. intros H. apply Hu. now right.
  - destruct u as [|d u]; [exact Hs |]. simpl.
    apply Ascii.eqb_neq. intros ->. apply Hu. right. now left.
Qed.

(** A reference with another tag is copied. *)
Lemma re_sub_skip_reference (tag' : ascii) (f s : text) :
  tag' <> tag -> tag <> "{" -> ~ In "{" f -> starts_open s = false ->
  re_sub P template (tag' :: "{" :: f ++ "}" :: s) =
  tag' :: "{" :: f ++ "}" :: re_sub P template s.
Proof.
  intros Ht Hb Hf Hs.
  rewrite re_sub_cons by apply brace_pattern_consuming.
  rewrite brace_match_other_tag by assumption. f_equal.
  rewrite re_sub_cons by apply brace_pattern_consuming.
  rewrite brace_match_other_tag by congruence. f_equal.
  change (f ++ "}" :: s) with (f ++ ["}"] ++ s).
  rewrite app_assoc, re_sub_skip; [now rewrite <- app_assoc | | assumption].
  rewrite in_app_iff. intros [H | [H | []]]; [contradiction | discriminate].
Qed.

(** A well-formed reference with the tag of the pattern is replaced. *)
Lemma re_sub_reference (f s : text) :
  Forall (fun c => in_cset cs c = true) f ->
  re_sub P template (tag :: "{" :: f ++ "}" :: s) =
  expand template f ++ re_sub P template s.
Proof.
  intros Hf. rewrite re_sub_cons by apply brace_pattern_consuming.
  now rewrite brace_match_exact.
Qed.

(** Where the pattern matches nowhere, nothing changes. *)
Lemma re_sub_no_match (s : text) :
  (forall pre s', s = pre ++ s' -> re_match P s' = None) ->
  re_sub P template s = s.
Proof.
  induction s as [|c s IH]; intros Hno; [reflexivity |].
  rewrite re_sub_cons by apply brace_pattern_consuming.
  rewrite (Hno [] (c :: s) eq_refl). f_equal. apply IH.
  intros pre s' ->. now apply (Hno (c :: pre)).
Qed.
End BracePattern.

Section BraceGrowth.
Variable tag : ascii.
Variable cs : cset.
Variable template : list repl_item.
Hypothesis template_longer :
  forall g, length g + 3 < length (expand template g).

Let P := brace_pattern tag cs.

(** A replacement is longer than what it replaces, so a pass never
    shortens the string, and lengthens it as soon as it matches once. *)
Lemma re_sub_length (s : text) : length s <= length (re_sub P template s).
Proof.
  remember (length s) as n eqn:Hn. revert s Hn.
  induction n as [n IH] using lt_wf_ind. intros [|c s] Hn; [simpl in *; lia |].
  rewrite re_sub_cons by apply brace_pattern_consuming. fold P.
  destruct (re_match P (c :: s)) as [[g rest]|] eqn:Hm.
  - apply brace_match_inv in Hm as [E _]. injection E as -> ->.
    simpl in Hn. rewrite length_app in Hn. simpl in Hn.
    pose proof (IH (length rest) ltac:(lia) rest eq_refl).
    pose proof (template_longer g). rewrite length_app. lia.
  - simpl in Hn. simpl.
    pose proof (IH (length s) ltac:(lia) s eq_refl). lia.
Qed.

Lemma re_sub_grows (s : text) :
  (exists pre s', s = pre ++ s' /\ re_match P s' <> None) ->
  length s < length (re_sub P template s).
Proof.
  induction s as [|c s IH]; intros [pre [s' [E Hm]]].
  - destruct pre; [| discriminate]. destruct s'; [| discriminate].
    now contradiction Hm.
  - rewrite re_sub_cons by apply brace_pattern_consuming. fold P.
    destruct (re_match P (c :: s)) as [[g rest]|] eqn:Hc.
    + apply brace_match_inv in Hc as [E' _]. injection E' as -> ->.
      pose proof (re_sub_length rest). pose proof (template_longer g).
      simpl. rewrite !length_app. simpl. lia.
    + destruct pre as [|x pre].
      * simpl in E. subst s'. congruence.
      * injection E as -> ->. simpl. apply -> Nat.succ_lt_mono.
        apply IH. now exists pre, s'.
Qed.
End BraceGrowth.

Lemma shape_has_open (s : text) : has_shorthand s -> In "{" s.
Proof.
  intros [[pre [f [post ->]]] | [[pre [f [post ->]]] | [pre [d [post [-> _]]]]]];
    rewrite in_app_iff; right; right; now left.
Qed.

Lemma first_close (l : text) :
  In "}" l ->
  exists f rest, l = f ++ "}" :: rest /\
                 Forall (fun c => in_cset (CNot "}") c = true) f.
Proof.
  induction l as [|c l IH]; [contradiction |]. intros Hin.
  destruct (ascii_dec c "}") as [-> | Hc].
  - now exists [], l.
  - destruct Hin as [E | Hin]; [congruence |].
    destruct (IH Hin) as [f [rest [-> Hf]]].
    exists (c :: f), rest. split; [reflexivity |]. constructor; [| assumption].
    simpl. now apply negb_true_iff, Ascii.eqb_neq.
Qed.

Lemma field_shape_match (tag : ascii) (s : text) :
  field_shape tag s <->
  exists pre s', s = pre ++ s' /\ re_match (field_pattern tag) s' <> None.
Proof.
  rewrite field_pattern_brace. split.
  - intros [pre [f [post ->]]].
    destruct (first_close (f ++ "}" :: post)) as [f0 [rest [E Hf]]];
      [rewrite in_app_iff; right; now left |].
    exists pre, (tag :: "{" :: f ++ "}" :: post). split; [reflexivity |].
    rewrite E, brace_match_exact by (reflexivity || assumption). discriminate.
  - intros [pre [s' [-> Hm]]].
    destruct (re_match (brace_pattern tag (CNot "}")) s') as [[g rest]|] eqn:E;
      [| congruence].
    apply brace_match_inv in E as [-> _]. now exists pre, g, rest.
Qed.

Lemma rating_shape_match (s : text) :
  rating_shape s <->
  exists pre s', s = pre ++ s' /\ re_match rating_pattern s' <> None.
Proof.
  rewrite rating_pattern_brace. split.
  - intros [pre [d [post [-> Hd]]]].
    exists pre, ("r" :: "{" :: d ++ "}" :: post). split; [reflexivity |].
    rewrite brace_match_exact by (reflexivity || assumption). discriminate.
  - intros [pre [s' [-> Hm]]].
    destruct (re_match (brace_pattern "r" CDigit) s') as [[g rest]|] eqn:E;
      [| congruence].
    apply brace_match_inv in E as [-> Hg]. now exists pre, g, rest.
Qed.

Lemma re_sub_fixed (r : regex) (tag : ascii) (cs : cset)
      (template : list repl_item) (s : text) :
  r = brace_pattern tag cs ->
  ~ (exists pre s', s = pre ++ s' /\ re_match r s' <> None) ->
  re_sub r template s = s.
Proof.
  intros -> Hno. apply re_sub_no_match. intros pre s' E.
  destruct (re_match (brace_pattern tag cs) s') eqn:Hm; [| reflexivity].
  exfalso. apply Hno. exists pre, s'. split; [assumption | congruence].
Qed.

(** The rewriter leaves a string as it is exactly when the string holds
    no shorthand shape. *)
Lemma prep_fixed_iff (s : text) :
  prep_composite_rating s = s <-> ~ has_shorthand s.
Proof.
  unfold prep_composite_rating, has_shorthand.
  set (tc := [RLit (txt "pdm_candidates."); RGroup]).
  set (th := [RLit (txt "headers."); RGroup]).
  set (tr := [RLit (txt "rat"); RGroup; RLit (txt ".value")]).
  assert (Lc : forall g, length g + 3 < length (expand tc g))
    by (intros g; unfold expand; simpl; rewrite app_nil_r; lia).
  assert (Lh : forall g, length g + 3 < length (expand th g))
    by (intros g; unfold expand; simpl; rewrite app_nil_r; lia).
  assert (Lr : forall g, length g + 3 < length (expand tr g))
    by (intros g; unfold expand; simpl; rewrite length_app; simpl; lia).
  rewrite !field_shape_match, rating_shape_match. split.
  - intros Hfix.
    set (s1 := re_sub (field_pattern "c") tc s) in *.
    set (s2 := re_sub (field_pattern "h") th s1) in *.
    pose proof (re_sub_length "c" (CNot "}") tc Lc s) as G1.
    pose proof (re_sub_length "h" (CNot "}") th Lh s1) as G2.
    pose proof (re_sub_length "r" CDigit tr Lr s2) as G3.
    rewrite <- field_pattern_brace in G1, G2.
    rewrite <- rating_pattern_brace in G3.
    fold s1 in G1. fold s2 in G2. rewrite Hfix in G3.
    assert (Hc : ~ exists pre s', s = pre ++ s' /\
                   re_match (field_pattern "c") s' <> None).
    { intros H. apply (re_sub_grows "c" (CNot "}") tc Lc) in H.
      rewrite <- field_pattern_brace in H. fold s1 in H. lia. }
    assert (E1 : s1 = s)
      by (unfold s1; now apply (re_sub_fixed _ "c" (CNot "}"))).
    assert (Hh : ~ exists pre s', s = pre ++ s' /\
                   re_match (field_pattern "h") s' <> None).
    { intros H. rewrite <- E1 in H.
      apply (re_sub_grows "h" (CNot "}") th Lh) in H.
      rewrite <- field_pattern_brace in H. fold s2 in H. lia. }
    assert (E2 : s2 = s).
    { unfold s2. rewrite E1. now apply (re_sub_fixed _ "h" (CNot "}")). }
    intros [H | [H | H]]; [now apply Hc | now apply Hh |].
    rewrite <- E2 in H. apply (re_sub_grows "r" CDigit tr Lr) in H.
    rewrite <- rating_pattern_brace in H. rewrite Hfix in H. lia.
  - intros Hno.
    rewrite (re_sub_fixed _ "c" (CNot "}") tc s) by tauto.
    rewrite (re_sub_fixed _ "h" (CNot "}") th s) by tauto.
    now rewrite (re_sub_fixed _ "r" CDigit tr s) by tauto.
Qed.

Lemma no_open_spec (t : text) : no_open t = true <-> ~ In "{" t.
Proof.
  unfold no_open. rewrite forallb_forall. split.
  - intros H Hin. apply H in Hin. discriminate.
  - intros H c Hin. apply negb_true_iff, Ascii.eqb_neq. congruence.
Qed.

Lemma no_brace_spec (t : text) :
  no_brace t = true <-> ~ In "{" t /\ ~ In "}" t.
Proof.
  unfold no_brace. rewrite forallb_forall. split.
  - intros H. split; intros Hin; apply H in Hin; discriminate.
  - intros [H1 H2] c Hin. apply andb_true_iff.
    split; apply negb_true_iff, Ascii.eqb_neq; congruence.
Qed.

Lemma no_brace_field (t : text) :
  no_brace t = true -> Forall (fun c => in_cset (CNot "}") c = true) t.
Proof.
  intros H. apply no_brace_spec in H as [_ H]. apply Forall_forall.
  intros c Hin. simpl. apply negb_true_iff, Ascii.eqb_neq. congruence.
Qed.

Lemma digits_no_open (d : text) : forallb is_digit d = true -> ~ In "{" d.
Proof.
  rewrite forallb_forall. intros H Hin. apply H in Hin. discriminate.
Qed.

Lemma render_cons (tok : token) (toks : list token) :
  render (tok :: toks) = render_token tok ++ render toks.
Proof. reflexivity. Qed.

(** A well-formed expression does not begin with an opening brace. *)
Lemma render_starts_open (toks : list token) :
  well_formed toks = true -> starts_open (render toks) = false.
Proof.
  induction toks as [|tok toks IH]; [reflexivity |].
  cbn [well_formed forallb]. rewrite andb_true_iff. intros [Htok Htoks].
  rewrite render_cons. destruct tok as [t | f | f | d]; try reflexivity.
  destruct t as [|c t]; [now apply IH |].
  simpl in Htok. apply andb_true_iff in Htok as [Hc _].
  simpl. now apply negb_true_iff.
Qed.

Section Pass.
Variable tag : ascii.
Variable cs : cset.
Variable template : list repl_item.
Hypothesis cs_stops : in_cset cs "}" = false.
Hypothesis tag_not_open : tag <> "{".
(** The class of the pass accepts the fields of its own references. *)
Hypothesis accepts_c :
  tag = "c" -> forall f, no_brace f = true ->
                         Forall (fun c => in_cset cs c = true) f.
Hypothesis accepts_h :
  tag = "h" -> forall f, no_brace f = true ->
                         Forall (fun c => in_cset cs c = true) f.
Hypothesis accepts_r :
  tag = "r" -> forall d, forallb is_digit d = true ->
                         Forall (fun c => in_cset cs c = true) d.
(** What the pass writes holds no opening brace. *)
Hypothesis template_no_open :
  forall g, ~ In "{" g -> ~ In "{" (expand template g).

Lemma pass_well_formed (toks : list token) :
  well_formed toks = true ->
  well_formed (map (pass_token tag template) toks) = true.
Proof.
  induction toks as [|tok toks IH]; [reflexivity |].
  cbn [well_formed forallb map]. rewrite !andb_true_iff.
  intros [Htok Htoks]. split; [| now apply IH].
  destruct tok as [t | f | f | d]; simpl in *; [assumption | | |].
  - destruct (Ascii.eqb tag "c"); [| assumption].
    apply no_open_spec, template_no_open. now apply no_brace_spec in Htok.
  - destruct (Ascii.eqb tag "h"); [| assumption].
    apply no_open_spec, template_no_open. now apply no_brace_spec in Htok.
  - destruct (Ascii.eqb tag "r"); [| assumption].
    apply no_open_spec, template_no_open. now apply digits_no_open.
Qed.

Lemma pass_render (toks : list token) :
  well_formed toks = true ->
  re_sub (brace_pattern tag cs) template (render toks) =
  render (map (pass_token tag template) toks).
Proof.
  induction toks as [|tok toks IH]; [reflexivity |].
  cbn [well_formed forallb map]. rewrite andb_true_iff.
  intros [Htok Htoks]. rewrite !render_cons.
  pose proof (render_starts_open toks Htoks) as Hstart.
  specialize (IH Htoks).
  destruct tok as [t | f | f | d]; cbn [well_formed_token] in Htok.
  - cbn [pass_token render_token].
    rewrite re_sub_skip by (try apply no_open_spec; assumption).
    now rewrite IH.
  - cbn [render_token pass_token]. rewrite <- !app_comm_cons, <- app_assoc.
    cbn [app]. destruct (Ascii.eqb tag "c") eqn:E.
    + apply Ascii.eqb_eq in E. rewrite E in *.
      rewrite re_sub_reference by auto. now rewrite IH.
    + apply Ascii.eqb_neq in E. apply no_brace_spec in Htok as [Ho _].
      rewrite re_sub_skip_reference by (assumption || congruence).
      rewrite IH. cbn [render_token].
      now rewrite <- !app_comm_cons, <- app_assoc.
  - cbn [render_token pass_token]. rewrite <- !app_comm_cons, <- app_assoc.
    cbn [app]. destruct (Ascii.eqb tag "h") eqn:E.
    + apply Ascii.eqb_eq in E. rewrite E in *.
      rewrite re_sub_reference by auto. now rewrite IH.
    + apply Ascii.eqb_neq in E. apply no_brace_spec in Htok as [Ho _].
      rewrite re_sub_skip_reference by (assumption || congruence).
      rewrite IH. cbn [render_token].
      now rewrite <- !app_comm_cons, <- app_assoc.
  - cbn [render_token pass_token]. rewrite <- !app_comm_cons, <- app_assoc.
    cbn [app]. destruct (Ascii.eqb tag "r") eqn:E.
    + apply Ascii.eqb_eq in E. rewrite E in *.
      rewrite re_sub_reference by auto. now rewrite IH.
    + apply Ascii.eqb_neq in E. apply digits_no_open in Htok.
      rewrite re_sub_skip_reference by (assumption || congruence).
      rewrite IH. cbn [render_token].
      now rewrite <- !app_comm_cons, <- app_assoc.
Qed.
End Pass.

Lemma canonical_token_passes (tok : token) :
  render_token
    (pass_token "r" [RLit (txt "rat"); RGroup; RLit (txt ".value")]
       (pass_token "h" [RLit (txt "headers."); RGroup]
          (pass_token "c" [RLit (txt "pdm_candidates."); RGroup] tok))) =
  canonical_token tok.
Proof.
  destruct tok as [t | f | f | d]; cbn; rewrite ?app_nil_r; reflexivity.
Qed.

(** On a well-formed expression the rewriter returns the canonical form. *)
Lemma prep_render (toks : list token) :
  well_formed toks = true ->
  prep_composite_rating (render toks) = canonical toks.
Proof.
  intros Hwf. unfold prep_composite_rating.
  set (tc := [RLit (txt "pdm_candidates."); RGroup]).
  set (th := [RLit (txt "headers."); RGroup]).
  set (tr := [RLit (txt "rat"); RGroup; RLit (txt ".value")]).
  assert (Nc : forall g, ~ In "{" g -> ~ In "{" (expand tc g)).
  { intros g Hg. unfold expand. simpl. rewrite app_nil_r.
    intros H. repeat (destruct H as [H | H]; [discriminate |]). auto. }
  assert (Nh : forall g, ~ In "{" g -> ~ In "{" (expand th g)).
  { intros g Hg. unfold expand. simpl. rewrite app_nil_r.
    intros H. repeat (destruct H as [H | H]; [discriminate |]). auto. }
  assert (Nr : forall g, ~ In "{" g -> ~ In "{" (expand tr g)).
  { intros g Hg. unfold expand. simpl. intros H.
    repeat (destruct H as [H | H]; [discriminate |]).
    apply in_app_iff in H as [H | H]; [auto |].
    repeat (destruct H as [H | H]; [discriminate |]). exact H. }
  assert (Dr : forall d, forallb is_digit d = true ->
                         Forall (fun c => in_cset CDigit c = true) d).
  { intros d Hd. apply Forall_forall. now apply forallb_forall. }
  rewrite field_pattern_brace, rating_pattern_brace.
  rewrite (pass_render "c" (CNot "}") tc) ; try assumption;
    try (intros; apply no_brace_field; assumption); try discriminate;
    try reflexivity.
  pose proof (pass_well_formed "c" tc Nc toks Hwf) as Hwf1.
  rewrite (pass_render "h" (CNot "}") th) ; try assumption;
    try (intros; apply no_brace_field; assumption); try discriminate;
    try reflexivity.
  pose proof (pass_well_formed "h" th Nh _ Hwf1) as Hwf2.
  rewrite (pass_render "r" CDigit tr) ; try assumption;
    try discriminate; try reflexivity; [| intros _; exact Dr].
  unfold render, canonical. rewrite !map_map. f_equal.
  apply map_ext. intros tok. apply canonical_token_passes.
Qed.

Lemma canonical_no_open (toks : list token) :
  well_formed toks = true -> ~ In "{" (canonical toks).
Proof.
  induction toks as [|tok toks IH]; [intros _ [] |].
  cbn [well_formed forallb]. rewrite andb_true_iff. intros [Htok Htoks].
  unfold canonical. cbn [map concat]. rewrite in_app_iff.
  intros [H | H]; [| now apply (IH Htoks)].
  destruct tok as [t | f | f | d]; cbn [well_formed_token canonical_token] in *.
  - now apply no_open_spec in Htok.
  - apply no_brace_spec in Htok as [Hf _]. simpl in H.
    repeat (destruct H as [H | H]; [discriminate |]). auto.
  - apply no_brace_spec in Htok as [Hf _]. simpl in H.
    repeat (destruct H as [H | H]; [discriminate |]). auto.
  - apply digits_no_open in Htok. simpl in H.
    repeat (destruct H as [H | H]; [discriminate |]).
    apply in_app_iff in H as [H | H]; [auto |].
    repeat (destruct H as [H | H]; [discriminate |]). exact H.
Qed.

(** ** The report driver *)

Section ReportFacts.
Variables value store : Type.
Variable get_data_answer : text -> store -> list value * store.
Variable id : Z.

Lemma bind_plt {A} (c : plot_call value) (k : unit -> io value store A)
      (w0 : world value store) :
  bind (plt c) k w0 = k tt (World (db w0) (queries w0) (plots w0 ++ [c])).
Proof. reflexivity. Qed.

Lemma bind_ret {A} (k : unit -> io value store A) (w0 : world value store) :
  bind (ret tt) k w0 = k tt w0.
Proof. reflexivity. Qed.

(** One histogram series of [produce_report]: the query is sent, and the
    histogram is drawn unless nothing came back. *)
Lemma series_run {A} (query : text) (hist : list value -> plot_call value)
      (k : unit -> io value store A) (w0 : world value store) :
  let answer := get_data_answer query (db w0) in
  bind (get_data get_data_answer query)
       (fun ratings =>
          bind (if (0 <? length ratings)%nat then plt (hist ratings)
                else ret tt) k) w0 =
  k tt (World (snd answer) (queries w0 ++ [query])
              (plots w0 ++ match fst answer with
                           | [] => []
                           | _ :: _ => [hist (fst answer)]
                           end)).
Proof.
  intros answer. unfold bind at 1. unfold get_data.
  change (get_data_answer query (db w0)) with answer.
  destruct answer as [ratings db'] eqn:E. cbn [fst snd].
  destruct ratings as [|r ratings]; cbn [length Nat.ltb Nat.leb].
  - rewrite bind_ret. cbn [db queries plots]. now rewrite app_nil_r.
  - rewrite bind_plt. reflexivity.
Qed.

Lemma bucket_hist_label (bucket : list value) (numbins : Z)
      (edgecolor caption : text) (norm : bool) (ratings : list value)
      (numbins' : Z) (edgecolor' label : text) (norm' : bool) :
  In (Hist ratings numbins' edgecolor' label norm')
     (bucket_hist bucket numbins edgecolor caption norm) ->
  ratings = bucket /\ ratings <> [] /\
  substring (str_of_nat (length ratings)) label.
Proof.
  destruct bucket as [|r bucket]; simpl; [contradiction |].
  intros [E | []]. injection E as <- _ _ <- _.
  split; [reflexivity |]. split; [discriminate |].
  exists (caption ++ txt " ("), (txt ")"). now rewrite <- !app_assoc.
Qed.
End ReportFacts.

(** ** The side-effect ratings *)

Section UploadFacts.
Variable path_exists : text -> bool.
Variable read_hex : text -> option text.
Variable fetchone : text -> bool.
Variable retcode : text -> Z.
Variable institution : text.

Lemma upload_pfd_returns (cand_id : pyval) (pfdfn : text)
      (tr tr' : list event) :
  upload_pfd path_exists read_hex fetchone cand_id pfdfn tr
  = (Return tt, tr') ->
  exists n query,
    cand_id = VInt n /\ path_exists pfdfn = true /\
    fetchone query = true /\ tr' = tr ++ [Execute query; Commit].
Proof.
  unfold upload_pfd. destruct cand_id as [|n|repr];
    try (unfold ebind, emit, eraise; simpl; discriminate).
  destruct (path_exists pfdfn); simpl; [| unfold eraise; discriminate].
  destruct (read_hex pfdfn) as [filedata|]; [| unfold eraise; discriminate].
  unfold ebind, emit.
  match goal with |- context [fetchone ?q] => set (query := q) end.
  destruct (fetchone query) eqn:F; simpl; unfold eraise, ereturn;
    intros H; [| discriminate].
  injection H as <-. exists n, query. rewrite <- app_assoc. auto.
Qed.

Lemma share_pfd_returns (pfdfn : text) (tr tr' : list event) :
  share_pfd path_exists retcode institution pfdfn tr = (Return tt, tr') ->
  exists cmd,
    path_exists pfdfn = true /\ retcode cmd = 0%Z /\ tr' = tr ++ [Call cmd].
Proof.
  unfold share_pfd. destruct (path_exists pfdfn); simpl;
    [| unfold eraise; discriminate].
  unfold ebind, emit.
  match goal with |- context [retcode ?c] => set (cmd := c) end.
  destruct (retcode cmd =? 0)%Z eqn:F; simpl; unfold eraise, ereturn;
    intros H; [| discriminate].
  injection H as <-. exists cmd. apply Z.eqb_eq in F. auto.
Qed.
End UploadFacts.

(** * The claims of the specification *)

(** ** Token rewriter, table extractor and query builder on a concrete case *)

(** C1: on the expression "c{snr} * r{12}" and the filter "h{nchan} > 0" the
    rewriter returns "pdm_candidates.snr * rat12.value" and
    "headers.nchan > 0"; the sorted union of the tables of both is headers,
    pdm_candidates, rat12; the query built from them selects the expression
    as composite_rating and has exactly one join clause for headers and one
    that aliases ratings as rat12 with rat12.rating_id = 12. *)
Theorem C1_concrete_case (id : Z) :
  let e := prep_composite_rating (txt "c{snr} * r{12}") in
  let w := prep_composite_rating (txt "h{nchan} > 0") in
  e = txt "pdm_candidates.snr * rat12.value" /\
  w = txt "headers.nchan > 0" /\
  sorted (list_set (get_tables w ++ get_tables e)) =
    [txt "headers"; txt "pdm_candidates"; txt "rat12"] /\
  query_tables e w false [] =
    [txt "headers"; txt "pdm_candidates"; txt "rat12"] /\
  map (join_clause id) (joined_tables id e w false []) =
    [txt " LEFT JOIN headers ON  headers.header_id = pdm_candidates.header_id ";
     txt (" LEFT JOIN ratings AS rat12 ON " ++
          " rat12.pdm_cand_id = pdm_candidates.pdm_cand_id AND " ++
          " rat12.rating_id = 12 ")] /\
  build_query id e w false [] =
    txt ("SELECT pdm_candidates.snr * rat12.value AS composite_rating " ++
         "FROM pdm_candidates " ++
         " LEFT JOIN headers ON  headers.header_id = pdm_candidates.header_id " ++
         " LEFT JOIN ratings AS rat12 ON " ++
         " rat12.pdm_cand_id = pdm_candidates.pdm_cand_id AND " ++
         " rat12.rating_id = 12 " ++
         "WHERE headers.nchan > 0 " ++
         " HAVING composite_rating IS NOT NULL").
Proof.
  repeat split; vm_compute; reflexivity.
Qed.

(** ** The join set of the query builder *)


(** On the same input the only join is for an alias [rat] that no
    reference of the expression names: the pattern of [get_tables] ends in
    an unescaped dot, which accepts the [e] of [rate]. *)
Lemma spurious_alias_join :
  joined_tables 0 (txt "pdm_candidates.rate") (txt "1") false [] = [txt "rat"] /\
  ~ required_source (txt "pdm_candidates.rate") (txt "1") false [] (txt "rat").
Proof.
  split; [vm_compute; reflexivity |].
  assert (He : contains (txt "rat.") (txt "pdm_candidates.rate") = false)
    by (vm_compute; reflexivity).
  assert (Hw : contains (txt "rat.") (txt "1") = false)
    by (vm_compute; reflexivity).
  unfold required_source, refers.
  intros [[E _] | [[E _] | [[E _] | [ds [_ [E H]]]]]]; try discriminate.
  rewrite <- !contains_spec in H.
  change (txt "rat" ++ txt ".") with (txt "rat.") in H.
  rewrite He, Hw in H. intuition discriminate.
Qed.



(** ** Idempotence and totality of the token rewriter *)

(** C3, counterexample: the rewriter maps "c{c{a}}" to "pdm_candidates.c{a}"
    and that to "pdm_candidates.pdm_candidates.a". *)
Lemma C3_counterexample :
  prep_composite_rating (prep_composite_rating (txt "c{c{a}}")) <>
  prep_composite_rating (txt "c{c{a}}").
Proof. vm_compute. discriminate. Qed.

(** C3, amended: rewriting twice gives the same as rewriting once exactly
    when the rewritten string holds no shorthand shape; this is so for
    every well-formed expression: literal text without an opening brace,
    field names without braces, rating ids made of digits. *)
Theorem C3_idempotent_without_shorthand (s : text) :
  (prep_composite_rating (prep_composite_rating s) = prep_composite_rating s
   <-> ~ has_shorthand (prep_composite_rating s)) /\
  (forall toks, well_formed toks = true -> s = render toks ->
     prep_composite_rating (prep_composite_rating s) = prep_composite_rating s).
Proof.
  split; [apply prep_fixed_iff |].
  intros toks Hwf ->. apply prep_fixed_iff.
  rewrite prep_render by assumption.
  intros H. apply shape_has_open in H. now apply (canonical_no_open toks).
Qed.

Lemma C3_idempotent_without_shorthand_witness :
  prep_composite_rating
    (prep_composite_rating (txt "c{snr} * r{12} / h{nchan}")) =
  prep_composite_rating (txt "c{snr} * r{12} / h{nchan}").
Proof.
  apply (proj2 (C3_idempotent_without_shorthand
                  (txt "c{snr} * r{12} / h{nchan}"))
               [CRef (txt "snr"); Lit (txt " * "); RRef (txt "12");
                Lit (txt " / "); HRef (txt "nchan")]);
    reflexivity.
Defined.

(** C4, counterexample: the rewriter maps "c{c{a}}" to "pdm_candidates.c{a}",
    which holds the shape of a candidate field reference. *)
Lemma C4_counterexample :
  ~ ~ has_shorthand (prep_composite_rating (txt "c{c{a}}")).
Proof.
  intros H. apply H. left.
  exists (txt "pdm_candidates."), (txt "a"), []. vm_compute. reflexivity.
Qed.

(** C4, amended: on a well-formed expression (literal text without an
    opening brace, field names without braces, rating ids made of digits)
    the rewriter returns the canonical dotted form, which holds no opening
    brace and so none of the three shorthand shapes. *)
Theorem C4_total_on_well_formed (toks : list token) :
  well_formed toks = true ->
  prep_composite_rating (render toks) = canonical toks /\
  ~ In "{" (prep_composite_rating (render toks)) /\
  ~ has_shorthand (prep_composite_rating (render toks)).
Proof.
  intros Hwf. rewrite prep_render by assumption.
  pose proof (canonical_no_open toks Hwf) as Hno.
  split; [reflexivity |]. split; [assumption |].
  intros H. now apply shape_has_open in H.
Qed.

Lemma C4_total_on_well_formed_witness :
  prep_composite_rating (txt "c{snr} * r{12} / h{nchan}") =
  txt "pdm_candidates.snr * rat12.value / headers.nchan".
Proof.
  apply (C4_total_on_well_formed
           [CRef (txt "snr"); Lit (txt " * "); RRef (txt "12");
            Lit (txt " / "); HRef (txt "nchan")]).
  reflexivity.
Defined.

(** ** Rating aliases in the table extractor *)




(** ** Null suppression and forced header join *)

(** C6: whatever the expression, the filter, the [no_test] flag and the
    classifications, the query ends with
    "HAVING composite_rating IS NOT NULL". *)
Theorem C6_having_suffix (id : Z) (prepped_string where_ : text)
        (no_test : bool) (classifications : list Z) :
  exists before,
    build_query id prepped_string where_ no_test classifications =
    before ++ txt "HAVING composite_rating IS NOT NULL".
Proof.
  rewrite build_query_eq.
  change (txt " HAVING composite_rating IS NOT NULL")
    with (txt " " ++ txt "HAVING composite_rating IS NOT NULL").
  eexists. rewrite !app_assoc. reflexivity.
Qed.

(** C7: when neither the expression nor the filter holds "headers.", the
    header table is not among their tables and is not joined without
    [no_test]; with [no_test] set the query has exactly one join clause for
    headers, on headers.header_id = pdm_candidates.header_id, and its WHERE
    clause is the filter followed by the restriction of headers.source_name
    to the names of real sources. *)
Theorem C7_no_test_forces_header_join (id : Z) (e w : text) (cls : list Z) :
  ~ substring (txt "headers.") e -> ~ substring (txt "headers.") w ->
  ~ In (txt "headers") (get_tables e) /\
  ~ In (txt "headers") (get_tables w) /\
  ~ In (txt "headers") (query_tables e w false cls) /\
  count_occ text_eq_dec (query_tables e w true cls) (txt "headers") = 1 /\
  count_occ text_eq_dec
    (map (join_clause id) (query_tables e w true cls))
    (txt " LEFT JOIN headers ON  headers.header_id = pdm_candidates.header_id ")
  = 1 /\
  exists rest,
    build_query id e w true cls =
    (txt "SELECT " ++ e ++ txt " AS composite_rating FROM pdm_candidates ") ++
    concat (map (join_clause id) (query_tables e w true cls)) ++
    (txt "WHERE " ++ w ++ txt " ") ++
    txt " AND headers.source_name LIKE 'G%' " ++ rest.
Proof.
  intros He Hw.
  assert (Hget : forall s, ~ substring (txt "headers.") s ->
                           ~ In (txt "headers") (get_tables s)).
  { intros s Hs H. apply get_tables_In in H as [[H _] | [[_ H] | H]];
      [discriminate | contradiction |].
    apply alias_findall_sound in H as [_ [ds [H _]]]. discriminate. }
  assert (Hcount : count_occ text_eq_dec (query_tables e w true cls)
                             (txt "headers") = 1).
  { apply NoDup_count_occ'.
    - apply strongly_sorted_NoDup, query_tables_sorted.
    - apply query_tables_In. auto. }
  split; [now apply Hget |]. split; [now apply Hget |].
  split.
  { intros H. apply query_tables_In in H as [H | [H | [[H _] | [_ H]]]];
      try discriminate; revert H; now apply Hget. }
  split; [exact Hcount |]. split.
  - rewrite <- (join_clause_headers id).
    rewrite (count_occ_map_at text_eq_dec text_eq_dec); [exact Hcount |].
    intros t _. apply join_clause_headers_inv.
  - rewrite build_query_eq. eexists. reflexivity.
Qed.

Lemma C7_no_test_forces_header_join_witness :
  count_occ text_eq_dec
    (query_tables (txt "pdm_candidates.snr * rat12.value") (txt "1") true [])
    (txt "headers") = 1.
Proof.
  apply (C7_no_test_forces_header_join
           0 (txt "pdm_candidates.snr * rat12.value") (txt "1") []).
  - rewrite <- contains_spec. vm_compute. discriminate.
  - rewrite <- contains_spec. vm_compute. discriminate.
Defined.

(** ** The report driver *)

(** C8: [produce_report] sends exactly four queries, built with the
    classifications [], [4,5], [6,7], [1,2,3] in this order; a bucket for
    which the store returns nothing adds no histogram and the report goes
    on; every histogram drawn carries a label that contains the number of
    values of its bucket. *)
Theorem C8_report_buckets (value store : Type)
        (get_data_answer : text -> store -> list value * store) (id : Z)
        (e w : text) (numbins : Z) (norm log : bool)
        (w0 : world value store) :
  let q := fun cls => build_query id e w false cls in
  let a1 := get_data_answer (q []) (db w0) in
  let a2 := get_data_answer (q [4; 5]%Z) (snd a1) in
  let a3 := get_data_answer (q [6; 7]%Z) (snd a2) in
  let a4 := get_data_answer (q [1; 2; 3]%Z) (snd a3) in
  let hists :=
    bucket_hist (fst a1) numbins (txt "k") (txt "All Cands") norm ++
    bucket_hist (fst a2) numbins (txt "r") (txt "RFI/Noise") norm ++
    bucket_hist (fst a3) numbins (txt "g") (txt "Known/Harmonic") norm ++
    bucket_hist (fst a4) numbins (txt "c") (txt "Class 1/2/3") norm in
  let w1 := snd (produce_report get_data_answer id e w numbins norm log w0) in
  queries w1 = queries w0 ++ [q []; q [4; 5]%Z; q [6; 7]%Z; q [1; 2; 3]%Z] /\
  db w1 = snd a4 /\
  plots w1 =
    plots w0 ++ [Figure] ++ hists ++
    [Title e; Xlabel (txt "Composite rating value"); Ylabel (txt "Number");
     Legend (txt "best") (txt "0.5")] ++
    (if log then [Ylim_low (txt "0.1"); Yscale (txt "log")] else []) ++
    [Connect_key_press; Show] /\
  (forall ratings numbins' edgecolor label norm',
     In (Hist ratings numbins' edgecolor label norm') hists ->
     ratings <> [] /\ In ratings [fst a1; fst a2; fst a3; fst a4] /\
     substring (str_of_nat (length ratings)) label).
Proof.
  intros q a1 a2 a3 a4 hists w1.
  assert (Hrun : w1 =
    World (snd a4)
          (queries w0 ++ [q []; q [4; 5]%Z; q [6; 7]%Z; q [1; 2; 3]%Z])
          (plots w0 ++ [Figure] ++ hists ++
           [Title e; Xlabel (txt "Composite rating value");
            Ylabel (txt "Number"); Legend (txt "best") (txt "0.5")] ++
           (if log then [Ylim_low (txt "0.1"); Yscale (txt "log")] else []) ++
           [Connect_key_press; Show])).
  { unfold w1, produce_report. cbv zeta.
    rewrite bind_plt. rewrite !series_run. cbn [db queries plots].
    rewrite !bind_plt. cbn [db queries plots].
    unfold hists, bucket_hist, a4, a3, a2, a1, q.
    destruct log; unfold bind, plt, ret; cbn [db queries plots snd];
      rewrite <- ?app_assoc; reflexivity. }
  rewrite Hrun. cbn [queries db plots].
  split; [reflexivity |]. split; [reflexivity |]. split; [reflexivity |].
  intros ratings numbins' edgecolor label norm' H.
  unfold hists in H. rewrite !in_app_iff in H.
  destruct H as [H | [H | [H | H]]];
    apply bucket_hist_label in H as [-> [Hne Hs]]; simpl; auto 7.
Qed.

Lemma C8_report_buckets_witness :
  hist_labels
    (plots (snd (produce_report sample_answer 1
                   (txt "pdm_candidates.snr") (txt "1") 1000 false false
                   (World 0 [] [])))) =
  [txt "All Cands (100)"; txt "RFI/Noise (10)"; txt "Known/Harmonic (5)"].
Proof.
  destruct (C8_report_buckets Z nat sample_answer 1
              (txt "pdm_candidates.snr") (txt "1") 1000 false false
              (World 0 [] [])) as [_ [_ [Hplots _]]].
  rewrite Hplots. vm_compute. reflexivity.
Defined.

(** ** Missing prerequisite of the side-effect ratings *)

(** C9: for a candidate whose 'cornell_pdm_cand_id' is None,
    [rate_candidate] of the upload rating raises UploadError and that of
    the share rating raises ShareError, each with its message, and no call
    to the outside is made. Whenever either returns, it returns 1 and the
    side effect has completed: the stored procedure was executed and
    committed and returned a row, or the rsync command was run and exited
    with status 0. *)
Theorem C9_missing_prerequisite
        (path_exists : text -> bool) (read_hex : text -> option text)
        (fetchone : text -> bool) (retcode : text -> Z) (institution : text)
        (candidate : text -> option pyval) (pfd : candidate_files)
        (tr : list event) :
  (candidate (txt "cornell_pdm_cand_id") = Some VNone ->
   UploadRating_rate_candidate path_exists read_hex fetchone candidate pfd tr =
     (Raise (UploadError
        (txt ("Candidate must be uploaded to Cornell " ++
              "before .pfd file can be uploaded."))), tr) /\
   SharePfdRating_rate_candidate path_exists retcode institution candidate pfd tr =
     (Raise (ShareError
        (txt ("Candidate must be uploaded to Cornell " ++
              "before .pfd file should be shared."))), tr)) /\
  (forall v tr',
     UploadRating_rate_candidate path_exists read_hex fetchone candidate pfd tr
     = (Return v, tr') ->
     v = 1%Z /\
     exists n query,
       candidate (txt "cornell_pdm_cand_id") = Some (VInt n) /\
       fetchone query = true /\ tr' = tr ++ [Execute query; Commit]) /\
  (forall v tr',
     SharePfdRating_rate_candidate path_exists retcode institution candidate
                                   pfd tr = (Return v, tr') ->
     v = 1%Z /\
     candidate (txt "cornell_pdm_cand_id") <> Some VNone /\
     exists cmd, retcode cmd = 0%Z /\ tr' = tr ++ [Call cmd]).
Proof.
  split; [| split].
  - intros Hnone. unfold UploadRating_rate_candidate,
      SharePfdRating_rate_candidate, ebind, getitem.
    rewrite Hnone. split; reflexivity.
  - intros v tr'. unfold UploadRating_rate_candidate, ebind, getitem.
    destruct (candidate (txt "cornell_pdm_cand_id")) as [cand_id|];
      [| unfold eraise; discriminate].
    unfold ereturn at 1.
    destruct cand_id as [|n|repr];
      [unfold eraise; discriminate | | simpl; discriminate].
    destruct (upload_pfd path_exists read_hex fetchone (VInt n)
                         (pfd_filename pfd) tr) as [[[]|ex] tr1] eqn:Hup;
      [| discriminate].
    unfold ereturn. intros H. injection H as <- <-.
    apply upload_pfd_returns in Hup as [n' [query [E [_ [F ->]]]]].
    injection E as <-. split; [reflexivity |]. now exists n, query.
  - intros v tr'. unfold SharePfdRating_rate_candidate, ebind, getitem.
    destruct (candidate (txt "cornell_pdm_cand_id")) as [cand_id|];
      [| unfold eraise; discriminate].
    unfold ereturn at 1.
    assert (Hrun : forall c, c <> VNone ->
      match share_pfd path_exists retcode institution (pfd_filename pfd) tr with
      | (Return _, tr'0) => ereturn 1%Z tr'0
      | (Raise e, tr'0) => (Raise e, tr'0)
      end = (Return v, tr') ->
      v = 1%Z /\ Some c <> Some VNone /\
      exists cmd, retcode cmd = 0%Z /\ tr' = tr ++ [Call cmd]).
    { intros c Hc.
      destruct (share_pfd path_exists retcode institution (pfd_filename pfd) tr)
        as [[[]|ex] tr1] eqn:Hsh; [| discriminate].
      unfold ereturn. intros H. injection H as <- <-.
      apply share_pfd_returns in Hsh as [cmd [_ [F ->]]].
      split; [reflexivity |]. split; [congruence |]. now exists cmd. }
    destruct cand_id as [|n|repr]; try (unfold eraise; discriminate);
      apply Hrun; discriminate.
Qed.

Lemma C9_missing_prerequisite_witness :
  UploadRating_rate_candidate
    (fun _ => true) (fun _ => Some (txt "00")) (fun _ => true)
    (fun key => if text_eqb key (txt "cornell_pdm_cand_id")
                then Some VNone else None)
    (Pfd (txt "/data/cand_1.pfd")) [] =
  (Raise (UploadError
     (txt ("Candidate must be uploaded to Cornell " ++
           "before .pfd file can be uploaded."))), []).
Proof.
  exact (proj1 (proj1 (C9_missing_prerequisite
                         (fun _ => true) (fun _ => Some (txt "00")) (fun _ => true)
                         (fun _ => 0%Z) (txt "McGill")
                         (fun key => if text_eqb key (txt "cornell_pdm_cand_id")
                                     then Some VNone else None)
                         (Pfd (txt "/data/cand_1.pfd")) [])
                      eq_refl)).
Defined.

(** ** Empty rating id *)

(** C10: the rewriter maps "r{}" to "rat.value"; [get_tables] on that gives
    the table rat; and [build_query] joins ratings under the alias rat with
    a predicate that compares rat.rating_id to the empty digit string. *)
Theorem C10_empty_rating_id (id : Z) :
  prep_composite_rating (txt "r{}") = txt "rat.value" /\
  get_tables (txt "rat.value") = [txt "rat"] /\
  map (join_clause id) (joined_tables id (txt "rat.value") (txt "1") false []) =
    [txt (" LEFT JOIN ratings AS rat ON " ++
          " rat.pdm_cand_id = pdm_candidates.pdm_cand_id AND " ++
          " rat.rating_id =  ")] /\
  build_query id (txt "rat.value") (txt "1") false [] =
    txt ("SELECT rat.value AS composite_rating FROM pdm_candidates " ++
         " LEFT JOIN ratings AS rat ON " ++
         " rat.pdm_cand_id = pdm_candidates.pdm_cand_id AND " ++
         " rat.rating_id =  " ++
         "WHERE 1 " ++
         " HAVING composite_rating IS NOT NULL") /\
  substring (txt "rat.rating_id = ")
            (build_query id (txt "rat.value") (txt "1") false []).
Proof.
  repeat split; try (vm_compute; reflexivity).
  apply contains_spec. vm_compute. reflexivity.
Qed.

(** * Further properties of the code *)

(** ** The table extractor *)

(** The result of [get_tables] is strictly ascending, hence free of
    duplicates, and each of its tables is pdm_candidates, headers or [rat]
    followed by digits. *)
Theorem get_tables_ascending (s : text) :
  StronglySorted text_lt (get_tables s) /\
  forall t, In t (get_tables s) ->
    t = txt "pdm_candidates" \/ t = txt "headers" \/
    exists ds, t = txt "rat" ++ ds /\ Forall (fun c => is_digit c = true) ds.
Proof.
  split; [apply get_tables_sorted | intros t; apply get_tables_shape].
Qed.

Lemma get_tables_ascending_witness :
  txt "pdm_candidates" = txt "pdm_candidates" \/
  txt "pdm_candidates" = txt "headers" \/
  exists ds, txt "pdm_candidates" = txt "rat" ++ ds /\
             Forall (fun c => is_digit c = true) ds.
Proof.
  apply (proj2 (get_tables_ascending (txt "pdm_candidates.snr"))).
  vm_compute. auto.
Defined.

(** The two fixed tables are reported exactly when their dotted prefix
    occurs: headers for "headers.", pdm_candidates for "pdm_candidates.". *)
Theorem get_tables_fixed_tables (s : text) :
  (In (txt "headers") (get_tables s) <-> substring (txt "headers.") s) /\
  (In (txt "pdm_candidates") (get_tables s) <->
   substring (txt "pdm_candidates.") s).
Proof.
  split; rewrite get_tables_In; split.
  - intros [[H _] | [[_ H] | H]]; [discriminate | assumption |].
    apply alias_findall_sound in H as [_ [ds [H _]]]. discriminate.
  - auto.
  - intros [[_ H] | [[H _] | H]]; [assumption | discriminate |].
    apply alias_findall_sound in H as [_ [ds [H _]]]. discriminate.
  - auto.
Qed.

(** Without any occurrence of [rat] in the string no alias is reported. *)
Theorem get_tables_without_rat (s t : text) :
  ~ substring (txt "rat") s -> In t (get_tables s) ->
  t = txt "pdm_candidates" \/ t = txt "headers".
Proof.
  intros Hno Hin. apply get_tables_In in Hin as [[-> _] | [[-> _] | H]]; auto.
  exfalso. apply Hno. apply alias_findall_sound in H as [[pre [post ->]] [ds [-> _]]].
  exists pre, (ds ++ post). now rewrite <- !app_assoc.
Qed.

Lemma get_tables_without_rat_witness :
  txt "headers" = txt "pdm_candidates" \/ txt "headers" = txt "headers".
Proof.
  apply (get_tables_without_rat (txt "headers.nchan > 0") (txt "headers")).
  - rewrite <- contains_spec. vm_compute. discriminate.
  - vm_compute. auto.
Defined.

(** The star gives back its last character when the rest of the pattern
    fails at the end of the input and succeeds one character earlier. *)
Lemma star_k_backtrack {R} (p : ascii -> bool) (ds : text) (d : ascii)
      (k : text -> option R) (r : R) :
  Forall (fun c => p c = true) ds -> p d = true ->
  k [] = None -> k [d] = Some r ->
  star_k p (ds ++ [d]) k = Some r.
Proof.
  intros Hds Hd Hnil Hone. induction Hds as [|c ds Hc Hds IH]; simpl.
  - now rewrite Hd, Hnil.
  - now rewrite Hc, IH.
Qed.

Lemma alias_match_at_end (ds : text) (d : ascii) :
  Forall (fun x => is_digit x = true) ds -> is_digit d = true ->
  re_match alias_pattern (txt "rat" ++ ds ++ [d]) = Some (txt "rat" ++ ds, []).
Proof.
  intros Hds Hd. unfold re_match.
  cbn [alias_pattern re_pre re_group re_post].
  cbn [match_k]. set (s := txt "rat" ++ ds ++ [d]).
  change s with ("r" :: "a" :: "t" :: ds ++ [d]) at 1.
  cbn [in_cset Ascii.eqb Bool.eqb andb].
  apply star_k_backtrack; try assumption; [reflexivity |].
  assert (E : Ascii.eqb d "010" = false).
  { apply Ascii.eqb_neq. intros ->. discriminate. }
  cbn [in_cset]. rewrite E. cbn [negb]. f_equal. f_equal.
  unfold s. replace (txt "rat" ++ ds ++ [d])
    with ((txt "rat" ++ ds) ++ [d]) by now rewrite <- app_assoc.
  rewrite firstn_app_exact. reflexivity.
Qed.

(** An alias that ends the string is reported without its last digit: the
    unescaped dot of the pattern needs a character, and takes the digit. *)
Theorem get_tables_alias_at_end (pre ds : text) (d : ascii) :
  ~ substring (txt "rat") pre ->
  Forall (fun x => is_digit x = true) ds -> is_digit d = true ->
  In (txt "rat" ++ ds) (get_tables (pre ++ txt "rat" ++ ds ++ [d])) /\
  ~ In (txt "rat" ++ ds ++ [d]) (get_tables (pre ++ txt "rat" ++ ds ++ [d])).
Proof.
  intros Hpre Hds Hd.
  assert (Hall : re_findall alias_pattern (pre ++ txt "rat" ++ ds ++ [d]) =
                 [txt "rat" ++ ds]).
  { rewrite alias_findall_skip by assumption.
    change (txt "rat" ++ ds ++ [d]) with ("r" :: txt "at" ++ ds ++ [d]).
    rewrite re_findall_cons by apply alias_pattern_consuming.
    change ("r" :: txt "at" ++ ds ++ [d]) with (txt "rat" ++ ds ++ [d]).
    now rewrite alias_match_at_end. }
  split.
  - apply get_tables_In. right; right. rewrite Hall. now left.
  - intros H. apply get_tables_In in H as [[H _] | [[H _] | H]];
      try discriminate.
    rewrite Hall in H. destruct H as [H | []].
    apply (f_equal (@length ascii)) in H.
    rewrite !length_app in H. simpl in H. lia.
Qed.

Lemma get_tables_alias_at_end_witness :
  In (txt "rat1") (get_tables (txt "1 < rat12")) /\
  ~ In (txt "rat12") (get_tables (txt "1 < rat12")).
Proof.
  apply (get_tables_alias_at_end (txt "1 < ") (txt "1") "2").
  - rewrite <- contains_spec. vm_compute. discriminate.
  - repeat constructor.
  - reflexivity.
Defined.

(** ** The token rewriter *)

Section SameLength.
Variable tag : ascii.
Variable cs : cset.
Variable template : list repl_item.
Hypothesis template_longer :
  forall g, length g + 3 < length (expand template g).

(** A pass that keeps the length has replaced nothing. *)
Lemma re_sub_same_length (s : text) :
  length (re_sub (brace_pattern tag cs) template s) = length s ->
  re_sub (brace_pattern tag cs) template s = s.
Proof.
  induction s as [|c s IH]; [reflexivity |].
  rewrite re_sub_cons by apply brace_pattern_consuming.
  destruct (re_match (brace_pattern tag cs) (c :: s)) as [[g rest]|] eqn:Hm.
  - apply brace_match_inv in Hm as [E _]. rewrite E.
    pose proof (re_sub_length tag cs template template_longer rest).
    pose proof (template_longer g).
    simpl. rewrite !length_app. simpl. lia.
  - simpl. intros H. f_equal. apply IH. lia.
Qed.
End SameLength.

Lemma candidate_template_longer (g : text) :
  length g + 3 < length (expand [RLit (txt "pdm_candidates."); RGroup] g).
Proof. unfold expand; simpl; rewrite app_nil_r; lia. Qed.

Lemma header_template_longer (g : text) :
  length g + 3 < length (expand [RLit (txt "headers."); RGroup] g).
Proof. unfold expand; simpl; rewrite app_nil_r; lia. Qed.

Lemma rating_template_longer (g : text) :
  length g + 3 <
  length (expand [RLit (txt "rat"); RGroup; RLit (txt ".value")] g).
Proof. unfold expand; simpl; rewrite length_app; simpl; lia. Qed.

(** The rewriter leaves a string unchanged exactly when the string holds
    none of the shapes c{...}, h{...}, r{digits}. *)
Theorem prep_unchanged_iff_no_shorthand (s : text) :
  prep_composite_rating s = s <-> ~ has_shorthand s.
Proof. apply prep_fixed_iff. Qed.

(** The rewriter never shortens a string, and when it keeps the length it
    has changed nothing. *)
Theorem prep_never_shortens (s : text) :
  length s <= length (prep_composite_rating s) /\
  (length (prep_composite_rating s) = length s ->
   prep_composite_rating s = s).
Proof.
  unfold prep_composite_rating.
  set (tc := [RLit (txt "pdm_candidates."); RGroup]).
  set (th := [RLit (txt "headers."); RGroup]).
  set (tr := [RLit (txt "rat"); RGroup; RLit (txt ".value")]).
  rewrite !field_pattern_brace, rating_pattern_brace.
  set (s1 := re_sub (brace_pattern "c" (CNot "}")) tc s).
  set (s2 := re_sub (brace_pattern "h" (CNot "}")) th s1).
  pose proof (re_sub_length "c" (CNot "}") tc candidate_template_longer s) as G1.
  pose proof (re_sub_length "h" (CNot "}") th header_template_longer s1) as G2.
  pose proof (re_sub_length "r" CDigit tr rating_template_longer s2) as G3.
  fold s1 in G1. fold s2 in G2.
  split; [lia |]. intros Hlen.
  assert (E1 : s1 = s).
  { apply (re_sub_same_length "c" (CNot "}") tc candidate_template_longer).
    fold s1. lia. }
  assert (E2 : s2 = s1).
  { apply (re_sub_same_length "h" (CNot "}") th header_template_longer).
    fold s2. lia. }
  rewrite (re_sub_same_length "r" CDigit tr rating_template_longer s2) by lia.
  congruence.
Qed.

Lemma prep_never_shortens_witness :
  prep_composite_rating (txt "snr * 2") = txt "snr * 2".
Proof.
  apply (proj2 (prep_never_shortens (txt "snr * 2"))). reflexivity.
Defined.

Lemma app_first_close (f g a b : text) :
  ~ In "}" f -> ~ In "}" g -> f ++ "}" :: a = g ++ "}" :: b -> f = g.
Proof.
  revert g; induction f as [|x f IH]; intros [|y g] Hf Hg E; simpl in *.
  - reflexivity.
  - injection E as <- _. exfalso. apply Hg. now left.
  - injection E as -> _. exfalso. apply Hf. now left.
  - injection E as -> E. f_equal. apply (IH g); auto.
Qed.

(** A rating reference whose id is not a string of digits is not a
    rating reference for the rewriter: it is neither rewritten nor
    rejected. *)
Theorem prep_keeps_non_numeric_rating (f : text) :
  no_brace f = true -> forallb is_digit f = false ->
  prep_composite_rating ("r" :: "{" :: f ++ ["}"]) = "r" :: "{" :: f ++ ["}"].
Proof.
  intros Hf Hnd. apply no_brace_spec in Hf as [Ho Hc].
  unfold prep_composite_rating.
  rewrite !field_pattern_brace, rating_pattern_brace.
  rewrite re_sub_skip_reference by (reflexivity || discriminate || assumption).
  rewrite re_sub_nil.
  rewrite re_sub_skip_reference by (reflexivity || discriminate || assumption).
  rewrite re_sub_nil.
  rewrite re_sub_cons by apply brace_pattern_consuming.
  destruct (re_match (brace_pattern "r" CDigit) ("r" :: "{" :: f ++ ["}"]))
    as [[g rest]|] eqn:Hm.
  - exfalso. apply brace_match_inv in Hm as [E Hg]. injection E as E.
    assert (Hgc : ~ In "}" g).
    { intros Hin. rewrite Forall_forall in Hg. apply Hg in Hin. discriminate. }
    apply app_first_close in E; [| assumption | assumption]. subst g.
    assert (Hall : forallb is_digit f = true).
    { apply forallb_forall. now apply Forall_forall. }
    congruence.
  - f_equal. rewrite re_sub_cons by apply brace_pattern_consuming.
    rewrite brace_match_other_tag by discriminate. f_equal.
    assert (E : re_sub (brace_pattern "r" CDigit)
                  [RLit (txt "rat"); RGroup; RLit (txt ".value")]
                  ((f ++ ["}"]) ++ []) = (f ++ ["}"]) ++ []).
    { rewrite re_sub_skip; [now rewrite re_sub_nil | | reflexivity].
      rewrite in_app_iff. intros [H | [H | []]]; [contradiction | discriminate]. }
    now rewrite app_nil_r in E.
Qed.

Lemma prep_keeps_non_numeric_rating_witness :
  prep_composite_rating (txt "r{snr}") = txt "r{snr}".
Proof.
  apply (prep_keeps_non_numeric_rating (txt "snr")); reflexivity.
Defined.

Lemma render_app (a b : list token) : render (a ++ b) = render a ++ render b.
Proof. unfold render. now rewrite map_app, concat_app. Qed.

Lemma well_formed_app (a b : list token) :
  well_formed (a ++ b) = well_formed a && well_formed b.
Proof. apply forallb_app. Qed.

(** The rewriter works piece by piece on well-formed expressions: the
    rewriting of two of them written one after the other is the rewriting
    of the first followed by the rewriting of the second. *)
Theorem prep_concatenation (a b : list token) :
  well_formed a = true -> well_formed b = true ->
  prep_composite_rating (render a ++ render b) =
  prep_composite_rating (render a) ++ prep_composite_rating (render b).
Proof.
  intros Ha Hb. rewrite <- render_app.
  rewrite !prep_render; try assumption.
  - unfold canonical. now rewrite map_app, concat_app.
  - rewrite well_formed_app, Ha, Hb. reflexivity.
Qed.

Lemma prep_concatenation_witness :
  prep_composite_rating (txt "c{snr} * " ++ txt "r{12}") =
  prep_composite_rating (txt "c{snr} * ") ++ prep_composite_rating (txt "r{12}").
Proof.
  apply (prep_concatenation [CRef (txt "snr"); Lit (txt " * ")]
                            [RRef (txt "12")]); reflexivity.
Defined.

(** ** From the expression to the joins *)

Lemma alias_match_not_r (c : ascii) (s : text) :
  c <> "r" -> re_match alias_pattern (c :: s) = None.
Proof.
  intros Hc. destruct (re_match alias_pattern (c :: s)) as [[g rest]|] eqn:Hm;
    [| reflexivity].
  apply alias_match_start in Hm as [s' E]. injection E as -> _. congruence.
Qed.

Lemma alias_findall_skip_no_r (u s : text) :
  no_r u = true ->
  re_findall alias_pattern (u ++ s) = re_findall alias_pattern s.
Proof.
  induction u as [|c u IH]; [reflexivity |]. simpl.
  rewrite andb_true_iff, negb_true_iff, Ascii.eqb_neq. intros [Hc Hu].
  rewrite re_findall_cons by apply alias_pattern_consuming.
  rewrite alias_match_not_r by assumption. now apply IH.
Qed.

Lemma alias_findall_headers (s : text) :
  re_findall alias_pattern (txt "headers." ++ s) = re_findall alias_pattern s.
Proof.
  change (txt "headers." ++ s) with (txt "heade" ++ "r" :: txt "s." ++ s).
  rewrite alias_findall_skip_no_r by reflexivity.
  rewrite re_findall_cons by apply alias_pattern_consuming.
  destruct (re_match alias_pattern ("r" :: txt "s." ++ s)) as [[g rest]|] eqn:Hm.
  - apply alias_match_start in Hm as [s' E]. discriminate.
  - now rewrite alias_findall_skip_no_r by reflexivity.
Qed.

Lemma alias_findall_alias (d s : text) :
  forallb is_digit d = true ->
  re_findall alias_pattern ((txt "rat" ++ d ++ txt ".value") ++ s) =
  (txt "rat" ++ d) :: re_findall alias_pattern s.
Proof.
  intros Hd.
  replace ((txt "rat" ++ d ++ txt ".value") ++ s)
    with ("r" :: txt "at" ++ d ++ "." :: txt "value" ++ s)
    by (simpl; now rewrite <- app_assoc).
  rewrite re_findall_cons by apply alias_pattern_consuming.
  change ("r" :: txt "at" ++ d ++ "." :: txt "value" ++ s)
    with (txt "rat" ++ d ++ "." :: txt "value" ++ s).
  rewrite alias_match_exact; [| | reflexivity | discriminate].
  - now rewrite alias_findall_skip_no_r by reflexivity.
  - apply Forall_forall. now apply forallb_forall.
Qed.

(** In the canonical form of a well-formed expression without the letter
    r outside its rating references, the pattern of [get_tables] finds the
    aliases of the rating references, each where it stands. *)
Lemma alias_findall_canonical (toks : list token) :
  well_formed toks = true -> forallb plain_token toks = true ->
  re_findall alias_pattern (canonical toks) =
  map (fun d => txt "rat" ++ d) (rating_ids toks).
Proof.
  induction toks as [|tok toks IH]; [reflexivity |].
  cbn [well_formed forallb]. rewrite !andb_true_iff.
  intros [Hwf Hwfs] [Hp Hps]. specialize (IH Hwfs Hps).
  unfold canonical, rating_ids in *. cbn [map concat].
  destruct tok as [t | f | f | d]; cbn [canonical_token plain_token] in *.
  - now rewrite alias_findall_skip_no_r.
  - rewrite <- app_assoc. rewrite alias_findall_skip_no_r by reflexivity.
    now rewrite alias_findall_skip_no_r.
  - rewrite <- app_assoc. rewrite alias_findall_headers.
    now rewrite alias_findall_skip_no_r.
  - rewrite alias_findall_alias by assumption. simpl. now rewrite IH.
Qed.

Lemma canonical_token_substring (tok : token) (toks : list token) :
  In tok toks -> substring (canonical_token tok) (canonical toks).
Proof.
  intros Hin. apply in_split in Hin as [a [b ->]].
  exists (canonical a), (canonical b). unfold canonical.
  now rewrite map_app, concat_app.
Qed.

Lemma rating_ids_In (d : text) (toks : list token) :
  In d (rating_ids toks) <-> In (RRef d) toks.
Proof.
  unfold rating_ids. induction toks as [|tok toks IH]; simpl; [tauto |].
  rewrite in_app_iff, IH. destruct tok; simpl; intuition congruence.
Qed.

Lemma joined_tables_In (id : Z) (e w : text) (no_test : bool) (cls : list Z)
      (t : text) :
  In t (joined_tables id e w no_test cls) <->
  In t (query_tables e w no_test cls) /\ t <> txt "pdm_candidates".
Proof.
  unfold joined_tables. rewrite filter_In. split.
  - intros [Hin Hj]. split; [assumption |].
    now apply (emits_join_query_table id e w no_test cls).
  - intros [Hin Hn]. split; [assumption |].
    now apply (emits_join_query_table id e w no_test cls).
Qed.

(** A candidate reference of a well-formed expression puts pdm_candidates
    among the tables of its rewritten form, and a header reference puts
    headers there. *)
Theorem field_references_get_their_table (toks : list token) :
  well_formed toks = true ->
  (forall f, In (CRef f) toks ->
     In (txt "pdm_candidates") (get_tables (prep_composite_rating (render toks)))) /\
  (forall f, In (HRef f) toks ->
     In (txt "headers") (get_tables (prep_composite_rating (render toks)))).
Proof.
  intros Hwf. rewrite prep_render by assumption.
  split; intros f Hin; apply get_tables_In;
    apply canonical_token_substring in Hin; [left | right; left];
    (split; [reflexivity |]); cbn [canonical_token] in Hin;
    destruct Hin as [pre [post ->]]; exists pre, (f ++ post);
    now rewrite <- !app_assoc.
Qed.

Lemma field_references_get_their_table_witness :
  In (txt "headers")
     (get_tables (prep_composite_rating (txt "c{snr} / h{nchan}"))).
Proof.
  apply (proj2 (field_references_get_their_table
                  [CRef (txt "snr"); Lit (txt " / "); HRef (txt "nchan")]
                  eq_refl) (txt "nchan")).
  simpl. auto.
Defined.

Lemma rating_reference_alias_table (toks : list token) (d : text) :
  well_formed toks = true -> forallb plain_token toks = true ->
  In (RRef d) toks ->
  In (txt "rat" ++ d) (get_tables (prep_composite_rating (render toks))).
Proof.
  intros Hwf Hplain Hd. rewrite prep_render by assumption.
  apply get_tables_In. right; right.
  rewrite alias_findall_canonical by assumption.
  apply in_map_iff. exists d. split; [reflexivity | now apply rating_ids_In].
Qed.

(** For a well-formed expression without the letter r outside its rating
    references, the aliases among the tables of the rewritten form are
    exactly those of the rating ids the expression refers to. *)
Theorem rating_references_get_their_alias (toks : list token) (t : text) :
  well_formed toks = true -> forallb plain_token toks = true ->
  (In t (get_tables (prep_composite_rating (render toks))) <->
   (t = txt "pdm_candidates" /\
    substring (txt "pdm_candidates.") (canonical toks)) \/
   (t = txt "headers" /\ substring (txt "headers.") (canonical toks)) \/
   (exists d, In (RRef d) toks /\ t = txt "rat" ++ d)).
Proof.
  intros Hwf Hplain. rewrite prep_render by assumption.
  rewrite get_tables_In, alias_findall_canonical by assumption.
  rewrite in_map_iff.
  split; (intros [H | [H | [d H]]]; [auto | auto | right; right; exists d]).
  - destruct H as [<- H]. now apply rating_ids_In in H.
  - destruct H as [H ->]. now apply rating_ids_In in H.
Qed.

Lemma rating_references_get_their_alias_witness :
  In (txt "rat12")
     (get_tables (prep_composite_rating (txt "c{sn} * r{12} + r{3}"))).
Proof.
  apply (rating_references_get_their_alias
           [CRef (txt "sn"); Lit (txt " * "); RRef (txt "12");
            Lit (txt " + "); RRef (txt "3")] (txt "rat12") eq_refl eq_refl).
  right; right. exists (txt "12"). simpl. auto.
Defined.

Lemma well_formed_rating_digits (toks : list token) (d : text) :
  well_formed toks = true -> In (RRef d) toks ->
  Forall (fun c => is_digit c = true) d.
Proof.
  intros Hwf Hin. unfold well_formed in Hwf. rewrite forallb_forall in Hwf.
  apply Hwf in Hin. simpl in Hin. apply Forall_forall.
  now apply forallb_forall.
Qed.

(** The query built from such an expression is the SELECT head, the join
    clauses of its tables, the WHERE clause with its optional restrictions
    and HAVING; among these join clauses there is exactly one for each
    rating id the expression refers to, under the alias of the id and with
    the id in the predicate, and exactly one for headers when the
    expression has a header reference, whatever the filter and the flags. *)
Theorem references_are_joined (id : Z) (toks : list token) (w : text)
        (no_test : bool) (cls : list Z) :
  well_formed toks = true -> forallb plain_token toks = true ->
  let e := prep_composite_rating (render toks) in
  let clauses := map (join_clause id) (query_tables e w no_test cls) in
  build_query id e w no_test cls =
    (txt "SELECT " ++ e ++ txt " AS composite_rating FROM pdm_candidates ") ++
    concat clauses ++
    (txt "WHERE " ++ w ++ txt " ") ++
    (if no_test then txt " AND headers.source_name LIKE 'G%' " else []) ++
    (if (0 <? length cls)%nat
     then txt " AND pdm_classifications.rank IN (" ++
          join (txt ",") (map str_of_Z cls) ++ txt ") "
     else []) ++
    txt " HAVING composite_rating IS NOT NULL" /\
  (forall d, In (RRef d) toks ->
     count_occ text_eq_dec clauses
       (txt " LEFT JOIN ratings AS rat" ++ d ++ txt " ON  rat" ++ d ++
        txt ".pdm_cand_id = pdm_candidates.pdm_cand_id AND  rat" ++ d ++
        txt ".rating_id = " ++ d ++ txt " ") = 1) /\
  (forall f, In (HRef f) toks ->
     count_occ text_eq_dec clauses
       (txt " LEFT JOIN headers ON  headers.header_id = pdm_candidates.header_id ")
     = 1).
Proof.
  intros Hwf Hplain e clauses.
  assert (Hnd : NoDup (query_tables e w no_test cls))
    by apply strongly_sorted_NoDup, query_tables_sorted.
  split; [apply build_query_eq |]. split.
  - intros d Hd. rewrite <- (join_clause_alias id d). unfold clauses.
    pose proof (well_formed_rating_digits toks d Hwf Hd) as Hdig.
    rewrite (count_occ_map_at text_eq_dec text_eq_dec).
    + apply NoDup_count_occ'; [assumption |].
      apply query_tables_In. left.
      now apply rating_reference_alias_table.
    + intros t Ht E. apply (join_clause_inj id); try assumption.
      * now apply query_tables_shape in Ht.
      * right; right; right. now exists d.
      * rewrite E, join_clause_alias. discriminate.
  - intros f Hf. rewrite <- (join_clause_headers id). unfold clauses.
    rewrite (count_occ_map_at text_eq_dec text_eq_dec);
      [| intros t _; apply join_clause_headers_inv].
    apply NoDup_count_occ'; [assumption |].
    apply query_tables_In. left. unfold e. rewrite prep_render by assumption.
    apply get_tables_In. right; left. split; [reflexivity |].
    apply canonical_token_substring in Hf. cbn [canonical_token] in Hf.
    destruct Hf as [pre [post ->]]. exists pre, (f ++ post).
    now rewrite <- !app_assoc.
Qed.

Lemma references_are_joined_witness :
  count_occ text_eq_dec
    (map (join_clause 1)
         (query_tables (prep_composite_rating (txt "c{sn} * r{12}"))
                       (txt "1") false []))
    (txt " LEFT JOIN ratings AS rat" ++ txt "12" ++ txt " ON  rat" ++
     txt "12" ++ txt ".pdm_cand_id = pdm_candidates.pdm_cand_id AND  rat" ++
     txt "12" ++ txt ".rating_id = " ++ txt "12" ++ txt " ") = 1.
Proof.
  apply (proj1 (proj2 (references_are_joined
                  1 [CRef (txt "sn"); Lit (txt " * "); RRef (txt "12")]
                  (txt "1") false [] eq_refl eq_refl)) (txt "12")).
  simpl. auto.
Defined.

(** ** The query builder *)

(** When neither the expression nor the filter holds "headers." or [rat]
    and no flag is set, the query has no join at all: it is the SELECT of
    the expression from pdm_candidates with the filter and HAVING. *)
Theorem build_query_without_joins (id : Z) (e w : text) :
  ~ substring (txt "headers.") e -> ~ substring (txt "headers.") w ->
  ~ substring (txt "rat") e -> ~ substring (txt "rat") w ->
  joined_tables id e w false [] = [] /\
  build_query id e w false [] =
  txt "SELECT " ++ e ++ txt " AS composite_rating FROM pdm_candidates " ++
  txt "WHERE " ++ w ++ txt "  HAVING composite_rating IS NOT NULL".
Proof.
  intros He Hw Re Rw.
  assert (HJ : joined_tables id e w false [] = []).
  { destruct (joined_tables id e w false []) as [|t J] eqn:E; [reflexivity |].
    exfalso.
    assert (Hin : In t (joined_tables id e w false [])) by (rewrite E; now left).
    apply joined_tables_In in Hin as [Hin Hc]. apply query_tables_In in Hin.
    assert (Hs : forall s, ~ substring (txt "headers.") s ->
                           ~ substring (txt "rat") s ->
                           In t (get_tables s) -> False).
    { intros s Hh Hr Ht. apply get_tables_In in Ht as [[-> _] | [[_ H] | H]];
        [congruence | contradiction |].
      apply Hr. apply alias_findall_sound in H as [[pre [post ->]] [ds [-> _]]].
      exists pre, (ds ++ post). now rewrite <- !app_assoc. }
    destruct Hin as [H | [H | [[H _] | [H _]]]];
      [now apply (Hs e) | now apply (Hs w) | discriminate | now apply H]. }
  split; [exact HJ |].
  rewrite build_query_eq.
  assert (Hc : concat (map (join_clause id) (query_tables e w false [])) = []).
  { rewrite <- (concat_map_filter_nonempty (join_clause id)).
    change (filter _ (query_tables e w false []))
      with (joined_tables id e w false []).
    now rewrite HJ. }
  rewrite Hc. cbn [length Nat.ltb Nat.leb app].
  rewrite <- !app_assoc. reflexivity.
Qed.

Lemma build_query_without_joins_witness :
  build_query 1 (txt "pdm_candidates.snr") (txt "1") false [] =
  txt ("SELECT pdm_candidates.snr AS composite_rating FROM pdm_candidates " ++
       "WHERE 1  HAVING composite_rating IS NOT NULL").
Proof.
  apply (build_query_without_joins 1 (txt "pdm_candidates.snr") (txt "1"));
    rewrite <- contains_spec; vm_compute; discriminate.
Defined.

Lemma join_clause_classifications_inv (id : Z) (t : text) :
  join_clause id t = join_clause id (txt "pdm_classifications") ->
  t = txt "pdm_classifications".
Proof.
  rewrite join_clause_classifications. unfold join_clause.
  destruct (text_eqb t (txt "headers")); [discriminate |].
  destruct (text_eqb t (txt "pdm_classifications")) eqn:E;
    [now apply text_eqb_eq in E |].
  destruct (startswith (txt "rat") t); discriminate.
Qed.

(** With classifications the query is the SELECT head, the join clauses
    of its tables, among them exactly one for pdm_classifications
    restricted to the default classification type and to the evaluator
    'PL', the WHERE clause, the restriction to real sources when [no_test]
    is set, the ranks allowed separated by commas, and HAVING. Without
    classifications the table is not used and no rank is asked for. *)
Theorem build_query_classifications (id : Z) (e w : text) (no_test : bool)
        (cls : list Z) :
  let clauses := map (join_clause id) (query_tables e w no_test cls) in
  (cls <> [] ->
   count_occ text_eq_dec clauses
     (txt " LEFT JOIN pdm_classifications ON " ++
      txt " pdm_candidates.pdm_cand_id = pdm_classifications.pdm_cand_id AND" ++
      txt " pdm_classifications.pdm_class_type_id = " ++ str_of_Z id ++
      txt " AND  pdm_classifications.who = 'PL' ") = 1 /\
   build_query id e w no_test cls =
     (txt "SELECT " ++ e ++ txt " AS composite_rating FROM pdm_candidates ") ++
     concat clauses ++
     (txt "WHERE " ++ w ++ txt " ") ++
     (if no_test then txt " AND headers.source_name LIKE 'G%' " else []) ++
     (txt " AND pdm_classifications.rank IN (" ++
      join (txt ",") (map str_of_Z cls) ++ txt ") ") ++
     txt " HAVING composite_rating IS NOT NULL") /\
  (cls = [] ->
   ~ In (txt "pdm_classifications") (query_tables e w no_test cls) /\
   build_query id e w no_test cls =
     (txt "SELECT " ++ e ++ txt " AS composite_rating FROM pdm_candidates ") ++
     concat clauses ++
     (txt "WHERE " ++ w ++ txt " ") ++
     (if no_test then txt " AND headers.source_name LIKE 'G%' " else []) ++
     txt " HAVING composite_rating IS NOT NULL").
Proof.
  intros clauses. split.
  - intros Hcls. split.
    + rewrite <- (join_clause_classifications id). unfold clauses.
      rewrite (count_occ_map_at text_eq_dec text_eq_dec);
        [| intros t _; apply join_clause_classifications_inv].
      apply NoDup_count_occ'.
      * apply strongly_sorted_NoDup, query_tables_sorted.
      * apply query_tables_In. auto.
    + rewrite build_query_eq. destruct cls as [|c cls]; [congruence |].
      reflexivity.
  - intros ->. split.
    + intros H. apply query_tables_In in H as [H | [H | [[_ H] | [H _]]]];
        try discriminate; try congruence;
        apply get_tables_shape in H as [H | [H | [ds [H _]]]]; discriminate.
    + rewrite build_query_eq. reflexivity.
Qed.

Lemma build_query_classifications_witness :
  build_query 1 (txt "pdm_candidates.snr") (txt "1") false [4; 5]%Z =
  txt ("SELECT pdm_candidates.snr AS composite_rating FROM pdm_candidates " ++
       " LEFT JOIN pdm_classifications ON " ++
       " pdm_candidates.pdm_cand_id = pdm_classifications.pdm_cand_id AND" ++
       " pdm_classifications.pdm_class_type_id = 1 AND " ++
       " pdm_classifications.who = 'PL' " ++
       "WHERE 1 " ++
       " AND pdm_classifications.rank IN (4,5) " ++
       " HAVING composite_rating IS NOT NULL").
Proof.
  rewrite (proj2 (proj1 (build_query_classifications
                           1 (txt "pdm_candidates.snr") (txt "1") false
                           [4; 5]%Z)
                        ltac:(discriminate))).
  vm_compute. reflexivity.
Defined.

(** The tables, and so the join clauses, depend on the expression and the
    filter only through what the two hold together: exchanging them gives
    the same list. *)
Theorem query_tables_exchange (e w : text) (no_test : bool) (cls : list Z) :
  query_tables e w no_test cls = query_tables w e no_test cls.
Proof.
  apply strongly_sorted_unique; try apply query_tables_sorted.
  intros t. rewrite !query_tables_In. tauto.
Qed.

(** ** The side-effect ratings *)

Lemma path_tail_no_slash (acc p : text) :
  ~ In "/" p -> path_tail acc p = acc ++ p.
Proof.
  revert acc; induction p as [|c p IH]; intros acc Hp; simpl.
  - now rewrite app_nil_r.
  - destruct (Ascii.eqb c "/") eqn:E.
    + apply Ascii.eqb_eq in E. subst. exfalso. apply Hp. now left.
    + rewrite IH; [now rewrite <- app_assoc | intros H; apply Hp; now right].
Qed.

Lemma path_tail_after_slash (acc d n : text) :
  ~ In "/" n -> path_tail acc (d ++ "/" :: n) = n.
Proof.
  revert acc; induction d as [|c d IH]; intros acc Hn; simpl.
  - now apply (path_tail_no_slash []).
  - destruct (Ascii.eqb c "/"); now apply IH.
Qed.

Lemma path_tail_free (acc p : text) :
  ~ In "/" acc -> ~ In "/" (path_tail acc p).
Proof.
  revert acc; induction p as [|c p IH]; intros acc Hacc; simpl; [assumption |].
  destruct (Ascii.eqb c "/") eqn:E.
  - apply IH. intros [].
  - apply IH. rewrite in_app_iff. intros [H | [H | []]]; [contradiction |].
    apply Ascii.eqb_neq in E. congruence.
Qed.

(** The file name sent with an upload or a transfer is what follows the
    last slash of the path: it holds no slash, a path without a slash is
    its own file name, and a directory put in front changes nothing. *)
Theorem path_tail_is_file_name (p : text) :
  ~ In "/" (path_tail [] p) /\
  (~ In "/" p -> path_tail [] p = p) /\
  (forall d, path_tail [] (d ++ "/" :: path_tail [] p) = path_tail [] p).
Proof.
  assert (H : ~ In "/" (path_tail [] p)) by (apply path_tail_free; intros []).
  split; [exact H |]. split.
  - intros Hp. now apply (path_tail_no_slash []).
  - intros d. now apply path_tail_after_slash.
Qed.

Lemma path_tail_is_file_name_witness :
  path_tail [] (txt "cand_1.pfd") = txt "cand_1.pfd".
Proof.
  apply (proj1 (proj2 (path_tail_is_file_name (txt "cand_1.pfd")))).
  intros H. simpl in H. intuition discriminate.
Defined.

Section UploadOutcomes.
Variable path_exists : text -> bool.
Variable read_hex : text -> option text.
Variable fetchone : text -> bool.
Variable retcode : text -> Z.
Variable institution : text.

Lemma upload_pfd_not_integer (cand_id : pyval) (pfdfn : text)
      (tr : list event) :
  (forall n, cand_id <> VInt n) ->
  upload_pfd path_exists read_hex fetchone cand_id pfdfn tr =
  (Raise (ValueError (txt "cand_id must be of type integer.")),
   tr ++ [Print (txt "type(cand_id):") cand_id; Print (txt "cand_id:") cand_id]).
Proof.
  intros Hn. destruct cand_id as [|n|repr]; [| now contradiction (Hn n) |];
    unfold upload_pfd, ebind, emit, eraise; simpl;
    now rewrite <- app_assoc.
Qed.

Lemma upload_pfd_unreadable (n : Z) (pfdfn : text) (tr : list event) :
  path_exists pfdfn = true -> read_hex pfdfn = None ->
  upload_pfd path_exists read_hex fetchone (VInt n) pfdfn tr =
  (Raise (IOError pfdfn), tr).
Proof.
  intros Hex Hrd. unfold upload_pfd. now rewrite Hex, Hrd.
Qed.

Lemma upload_pfd_integer (n : Z) (pfdfn filedata : text) (tr : list event) :
  path_exists pfdfn = true -> read_hex pfdfn = Some filedata ->
  let query :=
    txt "EXEC spPDMCandPlotLoader @pdm_cand_id=" ++ str_of_Z n ++
    txt ", @pdm_plot_type='pfd binary', @filename='" ++ path_tail [] pfdfn ++
    txt "', @filedata=0x" ++ filedata in
  upload_pfd path_exists read_hex fetchone (VInt n) pfdfn tr =
  (if fetchone query then Return tt
   else Raise (UploadError (txt "Plot upload failed!")),
   tr ++ [Execute query; Commit]).
Proof.
  intros Hex Hrd query. unfold upload_pfd. rewrite Hex, Hrd. cbn [negb].
  unfold ebind, emit.
  change (txt "EXEC spPDMCandPlotLoader " ++
          txt "@pdm_cand_id=" ++ str_of_Z n ++ txt ", " ++
          txt "@pdm_plot_type='pfd binary', " ++
          txt "@filename='" ++ path_tail [] pfdfn ++ txt "', " ++
          txt "@filedata=0x" ++ filedata) with query.
  destruct (fetchone query); cbn [negb]; unfold ereturn, eraise;
    now rewrite <- app_assoc.
Qed.

Lemma share_pfd_run (pfdfn : text) (tr : list event) :
  path_exists pfdfn = true ->
  let cmd :=
    txt "rsync -u pfdfn mtan@miarka.physics.mcgill.ca:/data/alfa/PALFA/pfds/" ++
    institution ++ txt "/" ++ path_tail [] pfdfn in
  share_pfd path_exists retcode institution pfdfn tr =
  (if (retcode cmd =? 0)%Z then Return tt
   else Raise (ShareError (txt "Rsync of pfd file (" ++ pfdfn ++
                           txt ") failed!")),
   tr ++ [Call cmd]).
Proof.
  intros Hex cmd. unfold share_pfd. rewrite Hex. cbn [negb].
  unfold ebind, emit.
  change (txt "rsync -u pfdfn " ++ USERNAME ++
          txt "@miarka.physics.mcgill.ca:/data/alfa/PALFA/pfds/" ++
          institution ++ txt "/" ++ path_tail [] pfdfn) with cmd.
  destruct (retcode cmd =? 0)%Z; reflexivity.
Qed.
End UploadOutcomes.

(** [upload_pfd] refuses an id that is not an integer after printing it,
    and a path that names no file, with a ValueError; in both cases no
    statement is executed on the database. *)
Theorem upload_pfd_refusals (path_exists : text -> bool)
        (read_hex : text -> option text) (fetchone : text -> bool)
        (cand_id : pyval) (pfdfn : text) (tr : list event) :
  ((forall n, cand_id <> VInt n) ->
   upload_pfd path_exists read_hex fetchone cand_id pfdfn tr =
   (Raise (ValueError (txt "cand_id must be of type integer.")),
    tr ++ [Print (txt "type(cand_id):") cand_id;
           Print (txt "cand_id:") cand_id])) /\
  (forall n, cand_id = VInt n -> path_exists pfdfn = false ->
   upload_pfd path_exists read_hex fetchone cand_id pfdfn tr =
   (Raise (ValueError (txt "pfdfn doesn't point to an existing file: " ++
                       pfdfn)), tr)).
Proof.
  split; [apply upload_pfd_not_integer |].
  intros n -> Hex. unfold upload_pfd. now rewrite Hex.
Qed.

Lemma upload_pfd_refusals_witness :
  upload_pfd (fun _ => false) (fun _ => Some (txt "00")) (fun _ => true)
             (VInt 7) (txt "/data/cand_1.pfd") [] =
  (Raise (ValueError (txt "pfdfn doesn't point to an existing file: " ++
                      txt "/data/cand_1.pfd")), []).
Proof.
  apply (proj2 (upload_pfd_refusals (fun _ => false) (fun _ => Some (txt "00"))
                  (fun _ => true) (VInt 7) (txt "/data/cand_1.pfd") [])
               7%Z eq_refl eq_refl).
Defined.

(** With an integer id and an existing file [upload_pfd] first reads the
    file: when that fails it raises IOError and nothing is executed. When
    the file is read, it executes the stored procedure and commits before
    it looks at the answer: when no row comes back it raises UploadError,
    and the statement has been executed and committed all the same. *)
Theorem upload_pfd_commits_first (path_exists : text -> bool)
        (read_hex : text -> option text) (fetchone : text -> bool)
        (n : Z) (pfdfn : text) (tr : list event) :
  path_exists pfdfn = true ->
  (read_hex pfdfn = None ->
   upload_pfd path_exists read_hex fetchone (VInt n) pfdfn tr =
   (Raise (IOError pfdfn), tr)) /\
  (forall filedata, read_hex pfdfn = Some filedata ->
   let query :=
     txt "EXEC spPDMCandPlotLoader @pdm_cand_id=" ++ str_of_Z n ++
     txt ", @pdm_plot_type='pfd binary', @filename='" ++ path_tail [] pfdfn ++
     txt "', @filedata=0x" ++ filedata in
   snd (upload_pfd path_exists read_hex fetchone (VInt n) pfdfn tr) =
     tr ++ [Execute query; Commit] /\
   (fetchone query = false ->
    fst (upload_pfd path_exists read_hex fetchone (VInt n) pfdfn tr) =
      Raise (UploadError (txt "Plot upload failed!"))) /\
   (fetchone query = true ->
    fst (upload_pfd path_exists read_hex fetchone (VInt n) pfdfn tr) =
      Return tt)).
Proof.
  intros Hex. split; [now apply upload_pfd_unreadable |].
  intros filedata Hrd query.
  rewrite (upload_pfd_integer path_exists read_hex fetchone n pfdfn filedata
                              tr Hex Hrd).
  fold query. cbn [fst snd].
  split; [reflexivity |]. split; intros ->; reflexivity.
Qed.

Lemma upload_pfd_commits_first_witness :
  snd (upload_pfd (fun _ => true) (fun _ => Some (txt "00")) (fun _ => false)
                  (VInt 7) (txt "/data/cand_1.pfd") []) =
  [Execute (txt ("EXEC spPDMCandPlotLoader @pdm_cand_id=7, " ++
                 "@pdm_plot_type='pfd binary', @filename='cand_1.pfd', " ++
                 "@filedata=0x00")); Commit].
Proof.
  apply (proj1 (proj2 (upload_pfd_commits_first
                         (fun _ => true) (fun _ => Some (txt "00"))
                         (fun _ => false) 7 (txt "/data/cand_1.pfd") []
                         eq_refl)
                      (txt "00") eq_refl)).
Defined.

(** [share_pfd] runs no command for a path that names no file; otherwise
    it runs exactly one rsync command, and raises ShareError exactly when
    the command exits with a status other than 0. *)
Theorem share_pfd_outcomes (path_exists : text -> bool) (retcode : text -> Z)
        (institution pfdfn : text) (tr : list event) :
  (path_exists pfdfn = false ->
   share_pfd path_exists retcode institution pfdfn tr =
   (Raise (ValueError (txt "pfdfn doesn't point to an existing file: " ++
                       pfdfn)), tr)) /\
  (path_exists pfdfn = true ->
   exists cmd,
     snd (share_pfd path_exists retcode institution pfdfn tr) =
       tr ++ [Call cmd] /\
     (retcode cmd = 0%Z ->
      fst (share_pfd path_exists retcode institution pfdfn tr) = Return tt) /\
     (retcode cmd <> 0%Z ->
      fst (share_pfd path_exists retcode institution pfdfn tr) =
      Raise (ShareError (txt "Rsync of pfd file (" ++ pfdfn ++
                         txt ") failed!")))).
Proof.
  split.
  - intros Hex. unfold share_pfd. now rewrite Hex.
  - intros Hex. rewrite (share_pfd_run path_exists retcode institution pfdfn tr Hex).
    eexists. cbn [fst snd]. split; [reflexivity |].
    split; intros H.
    + now rewrite H.
    + apply Z.eqb_neq in H. now rewrite H.
Qed.

Lemma share_pfd_outcomes_witness :
  share_pfd (fun _ => false) (fun _ => 0%Z) (txt "McGill")
            (txt "/data/cand_1.pfd") [] =
  (Raise (ValueError (txt "pfdfn doesn't point to an existing file: " ++
                      txt "/data/cand_1.pfd")), []).
Proof.
  apply (proj1 (share_pfd_outcomes (fun _ => false) (fun _ => 0%Z)
                  (txt "McGill") (txt "/data/cand_1.pfd") []) eq_refl).
Defined.

(** The rsync command names the literal source [pfdfn], not the path it
    was given: two existing files with the same file name, wherever they
    are, give the same command and the same outcome. *)
Theorem share_pfd_ignores_directory (path_exists : text -> bool)
        (retcode : text -> Z) (institution p1 p2 : text) (tr : list event) :
  path_exists p1 = true -> path_exists p2 = true ->
  path_tail [] p1 = path_tail [] p2 ->
  snd (share_pfd path_exists retcode institution p1 tr) =
  snd (share_pfd path_exists retcode institution p2 tr) /\
  exists cmd,
    snd (share_pfd path_exists retcode institution p1 tr) = tr ++ [Call cmd] /\
    exists rest, cmd = txt "rsync -u pfdfn " ++ rest.
Proof.
  intros H1 H2 E.
  rewrite (share_pfd_run path_exists retcode institution p1 tr H1).
  rewrite (share_pfd_run path_exists retcode institution p2 tr H2).
  cbn [snd]. rewrite E. split; [reflexivity |].
  eexists. split; [reflexivity |]. eexists. reflexivity.
Qed.

Lemma share_pfd_ignores_directory_witness :
  snd (share_pfd (fun _ => true) (fun _ => 0%Z) (txt "McGill")
                 (txt "/data/a/cand_1.pfd") []) =
  snd (share_pfd (fun _ => true) (fun _ => 0%Z) (txt "McGill")
                 (txt "/data/b/cand_1.pfd") []).
Proof.
  apply (share_pfd_ignores_directory (fun _ => true) (fun _ => 0%Z)
           (txt "McGill") (txt "/data/a/cand_1.pfd")
           (txt "/data/b/cand_1.pfd") []); reflexivity.
Defined.

(** A candidate without the key 'cornell_pdm_cand_id' makes both ratings
    raise KeyError before anything is done. *)
Theorem rate_candidate_missing_key (path_exists : text -> bool)
        (read_hex : text -> option text) (fetchone : text -> bool)
        (retcode : text -> Z) (institution : text)
        (candidate : text -> option pyval) (pfd : candidate_files)
        (tr : list event) :
  candidate (txt "cornell_pdm_cand_id") = None ->
  UploadRating_rate_candidate path_exists read_hex fetchone candidate pfd tr =
    (Raise (KeyError (txt "cornell_pdm_cand_id")), tr) /\
  SharePfdRating_rate_candidate path_exists retcode institution candidate
                                pfd tr =
    (Raise (KeyError (txt "cornell_pdm_cand_id")), tr).
Proof.
  intros Hkey.
  unfold UploadRating_rate_candidate, SharePfdRating_rate_candidate,
    ebind, getitem.
  rewrite Hkey. split; reflexivity.
Qed.

Lemma rate_candidate_missing_key_witness :
  UploadRating_rate_candidate (fun _ => true) (fun _ => Some (txt "00"))
    (fun _ => true) (fun _ => None) (Pfd (txt "/data/cand_1.pfd")) [] =
  (Raise (KeyError (txt "cornell_pdm_cand_id")), []).
Proof.
  apply (proj1 (rate_candidate_missing_key
                  (fun _ => true) (fun _ => Some (txt "00")) (fun _ => true)
                  (fun _ => 0%Z) (txt "McGill") (fun _ => None)
                  (Pfd (txt "/data/cand_1.pfd")) [] eq_refl)).
Defined.

(** The share rating only checks that the id is not None: with any other
    id, integer or not, it does what [share_pfd] does on the file and
    returns 1 when that returns. The upload rating raises ValueError for an
    id that is neither None nor an integer. *)
Theorem share_rating_ignores_id (path_exists : text -> bool)
        (read_hex : text -> option text) (fetchone : text -> bool)
        (retcode : text -> Z) (institution : text)
        (candidate : text -> option pyval) (pfd : candidate_files)
        (tr : list event) (v : pyval) :
  candidate (txt "cornell_pdm_cand_id") = Some v -> v <> VNone ->
  SharePfdRating_rate_candidate path_exists retcode institution candidate
                                pfd tr =
  (match fst (share_pfd path_exists retcode institution (pfd_filename pfd) tr)
   with
   | Return _ => Return 1%Z
   | Raise e => Raise e
   end,
   snd (share_pfd path_exists retcode institution (pfd_filename pfd) tr)) /\
  ((forall n, v <> VInt n) ->
   fst (UploadRating_rate_candidate path_exists read_hex fetchone
                                    candidate pfd tr) =
   Raise (ValueError (txt "cand_id must be of type integer."))).
Proof.
  intros Hkey Hv. split.
  - unfold SharePfdRating_rate_candidate, ebind, getitem. rewrite Hkey.
    unfold ereturn at 1.
    destruct v as [|n|repr]; [congruence | |];
      destruct (share_pfd path_exists retcode institution (pfd_filename pfd) tr)
        as [[[]|ex] tr1]; reflexivity.
  - intros Hn. unfold UploadRating_rate_candidate, ebind, getitem.
    rewrite Hkey. unfold ereturn at 1.
    destruct v as [|n|repr]; [congruence | now contradiction (Hn n) |].
    rewrite upload_pfd_not_integer by discriminate. reflexivity.
Qed.

Lemma share_rating_ignores_id_witness :
  SharePfdRating_rate_candidate
    (fun _ => true) (fun _ => 0%Z) (txt "McGill")
    (fun _ => Some (VOther (txt "'12'"))) (Pfd (txt "/data/cand_1.pfd")) [] =
  (Return 1%Z,
   [Call (txt ("rsync -u pfdfn mtan@miarka.physics.mcgill.ca:" ++
               "/data/alfa/PALFA/pfds/McGill/cand_1.pfd"))]).
Proof.
  apply (proj1 (share_rating_ignores_id
                  (fun _ => true) (fun _ => Some (txt "00")) (fun _ => true)
                  (fun _ => 0%Z) (txt "McGill")
                  (fun _ => Some (VOther (txt "'12'")))
                  (Pfd (txt "/data/cand_1.pfd")) [] (VOther (txt "'12'"))
                  eq_refl ltac:(discriminate))).
Defined.

(** ** Rating types and the command line *)

Lemma join_cons (sep x : text) (l : list text) :
  l <> [] -> join sep (x :: l) = x ++ sep ++ join sep l.
Proof. destruct l; [congruence | reflexivity]. Qed.

Lemma split_on_nonempty (sep : ascii) (cur s : text) :
  split_on sep cur s <> [].
Proof.
  revert cur; induction s as [|c s IH]; intros cur; simpl; [discriminate |].
  destruct (Ascii.eqb c sep); [discriminate | apply IH].
Qed.

Lemma split_on_join (sep : ascii) (cur s : text) :
  join [sep] (split_on sep cur s) = cur ++ s.
Proof.
  revert cur; induction s as [|c s IH]; intros cur; simpl.
  - now rewrite app_nil_r.
  - destruct (Ascii.eqb c sep) eqn:E.
    + apply Ascii.eqb_eq in E. subst c.
      rewrite join_cons by apply split_on_nonempty. now rewrite IH.
    + rewrite IH. now rewrite <- app_assoc.
Qed.

(** The lines of a text, put together again with newlines, are the text. *)
Lemma split_lines_join (s : text) :
  join newline (split_on "010" [] s) = s.
Proof. apply (split_on_join "010" [] s). Qed.

Section FormatRating.
Variable cstring_bold : text -> text.
Variable cstring_underline : text -> text.
Variable fill60 : text -> text.


Lemma format_rating_complete (d : row) (t : text) :
  fst (format_rating cstring_bold cstring_underline fill60 d true) = inr t ->
  exists desc wrapped,
    d (txt "description") = Some (DStr desc) /\
    wrapped = join newline
                (map (fun p => fill60 (strip p)) (split_on "010" [] desc)) /\
    snd (format_rating cstring_bold cstring_underline fill60 d true) =
      setitem d (txt "description") (DStr wrapped) /\
    exists head, t = head ++ newline ++ wrapped.
Proof.
  unfold format_rating.
  destruct (d (txt "name")); [| discriminate].
  destruct (d (txt "version")) as [v|]; [| discriminate].
  destruct (format_d v); [| discriminate].
  destruct (d (txt "rating_id")) as [r|]; [| discriminate].
  destruct (format_d r); [| discriminate].
  destruct (d (txt "description")) as [[| |desc]|]; try discriminate.
  cbn [fst snd]. intros H. injection H as <-.
  exists desc. eexists. split; [reflexivity |]. split; [reflexivity |].
  split; [reflexivity |]. eexists. reflexivity.
Qed.
End FormatRating.


(** The description is cut into lines and put together again after each
    line is stripped and wrapped: when stripping and wrapping leave every
    line of it as it is, the complete form stores back the description it
    found. *)
Theorem format_rating_wrapped_description
        (cstring_bold cstring_underline fill60 : text -> text)
        (d : row) (desc t : text) :
  d (txt "description") = Some (DStr desc) ->
  (forall p, In p (split_on "010" [] desc) -> fill60 (strip p) = p) ->
  fst (format_rating cstring_bold cstring_underline fill60 d true) = inr t ->
  snd (format_rating cstring_bold cstring_underline fill60 d true)
      (txt "description") = Some (DStr desc).
Proof.
  intros Hd Hfix Ht.
  apply format_rating_complete in Ht as [desc' [wrapped [Hd' [Hw [Hsnd _]]]]].
  rewrite Hd in Hd'. injection Hd' as <-.
  rewrite Hsnd. unfold setitem. rewrite text_eqb_refl. do 2 f_equal.
  rewrite Hw. rewrite (map_ext_in _ (fun p => p)) by exact Hfix.
  rewrite map_id. apply split_lines_join.
Qed.


Lemma format_rating_wrapped_description_witness :
  snd (format_rating (fun s => s) (fun s => s) (fun s => s)
         (fun key => if text_eqb key (txt "description")
                     then Some (DStr (txt "signal to noise"))
                     else if text_eqb key (txt "name")
                          then Some (DStr (txt "snr")) else Some (DInt 1))
         true)
      (txt "description") = Some (DStr (txt "signal to noise")).
Proof.
  eapply (format_rating_wrapped_description
            (fun s => s) (fun s => s) (fun s => s) _ (txt "signal to noise")).
  - reflexivity.
  - intros p [<- | []]. reflexivity.
  - reflexivity.
Defined.

Section MainFacts.
Variables value store : Type.
Variable get_data_answer : text -> store -> list value * store.
Variable id : Z.

Lemma produce_report_queries (e w : text) (numbins : Z) (norm log : bool)
      (w0 : world value store) :
  queries (snd (produce_report get_data_answer id e w numbins norm log w0)) =
  queries w0 ++
  map (build_query id e w false) [[]; [4; 5]; [6; 7]; [1; 2; 3]]%Z.
Proof.
  unfold produce_report. cbv zeta.
  rewrite bind_plt. rewrite !series_run. cbn [db queries plots].
  rewrite !bind_plt. cbn [db queries plots].
  destruct log; unfold bind, plt, ret; cbn [db queries plots snd map];
    rewrite <- ?app_assoc; reflexivity.
Qed.

Lemma print_stderr (items : list text) (con : console) :
  stderr (print items con) = stderr con.
Proof. reflexivity. Qed.
End MainFacts.

(** Without an argument [main] writes its complaint to the error stream
    and exits with status 1: nothing is printed and the store is not
    queried. With arguments it joins them with spaces, rewrites both the
    expression and the filter of the options, prints the query wrapped,
    and sends the four queries of the report built from the two rewritten
    strings; the query it printed is the first one it sends. *)
Theorem main_outcomes (value store : Type)
        (get_data_answer : text -> store -> list value * store) (id : Z)
        (fill72 : text -> text) (args : list text) (opts : options)
        (con : console) (w : world value store) :
  (args = [] ->
   main get_data_answer id fill72 args opts con w =
   (Exit 1,
    Console (stdout con)
            (stderr con ++ txt "No rating string provided! Exiting..." ++
             newline), w)) /\
  (args <> [] ->
   let e := prep_composite_rating (join (txt " ") args) in
   let f := prep_composite_rating (where_clause opts) in
   let r := main get_data_answer id fill72 args opts con w in
   fst (fst r) = Done tt /\
   stderr (snd (fst r)) = stderr con /\
   (exists printed,
      stdout (snd (fst r)) =
      stdout con ++ printed ++ fill72 (build_query id e f false []) ++ newline) /\
   queries (snd r) =
     queries w ++
     map (build_query id e f false) [[]; [4; 5]; [6; 7]; [1; 2; 3]]%Z).
Proof.
  split.
  - intros ->. reflexivity.
  - intros Hargs e f r.
    assert (Hlen : (length args <? 1)%nat = false).
    { destruct args; [congruence | reflexivity]. }
    unfold r, main. rewrite Hlen. cbv zeta. fold e. fold f.
    pose proof (produce_report_queries value store get_data_answer id e f
                  (opt_numbins opts) (opt_norm opts) (opt_log opts) w) as Hq.
    destruct (produce_report get_data_answer id e f (opt_numbins opts)
                             (opt_norm opts) (opt_log opts) w) as [u w'].
    cbn [fst snd] in *. split; [reflexivity |]. split; [reflexivity |].
    split; [| exact Hq].
    unfold print. cbn [stdout stderr join].
    exists ((txt "Input composite rating string: " ++ txt " " ++
             join (txt " ") args) ++ newline ++
            (txt "Prepped composite rating string:" ++ txt " " ++ e) ++
            newline ++
            (txt "Where clause:" ++ txt " " ++ f) ++ newline ++
            (txt "MySQL DB tables to use:" ++ txt " " ++
             join (txt ", ") (sorted (list_set (get_tables f ++ get_tables e)))) ++
            newline ++
            txt "MySQL query to compute composite rating:" ++ newline).
    rewrite <- !app_assoc. reflexivity.
Qed.

Lemma main_outcomes_witness :
  main (fun (_ : text) (n : nat) => (@nil Z, n)) 1 (fun s => s) []
       (Options false None (txt "1") 1000 false false)
       (Console [] []) (World 0 [] []) =
  (Exit 1,
   Console [] (txt "No rating string provided! Exiting..." ++ newline),
   World 0 [] []).
Proof.
  apply (proj1 (main_outcomes Z nat (fun _ n => (@nil Z, n)) 1 (fun s => s) []
                  (Options false None (txt "1") 1000 false false)
                  (Console [] []) (World 0 [] [])) eq_refl).
Defined.

Lemma print_ratings_stderr (cstring_bold cstring_underline fill60 : text -> text)
      (rating_types : list row) (con : console) :
  stderr (snd (print_ratings cstring_bold cstring_underline fill60
                             rating_types con)) = stderr con.
Proof.
  revert con; induction rating_types as [|rt rest IH]; intros con; simpl;
    [reflexivity |].
  destruct (fst (format_rating cstring_bold cstring_underline fill60 rt false));
    [reflexivity |].
  now rewrite IH.
Qed.

(** Listing the ratings and describing one end the script before [main]:
    with either option the store of rating values is not queried, nothing
    is plotted, and the script does not run to its end but exits with
    status 0 or raises. --list-ratings comes first when both are given.
    Describing an id for which the store has no row raises IndexError
    with nothing printed. With neither option the script is [main]. *)
Theorem script_dispatch (value store : Type)
        (get_data_answer : text -> store -> list value * store) (id : Z)
        (get_rows : text -> list row)
        (cstring_bold cstring_underline fill60 fill72 : text -> text)
        (args : list text) (opts : options) (con : console)
        (w : world value store) :
  let run := script get_data_answer id get_rows cstring_bold
                    cstring_underline fill60 fill72 args opts con w in
  (list_ratings opts = true \/ describe_rating opts <> None ->
   snd run = w /\ stderr (snd (fst run)) = stderr con /\
   (fst (fst run) = Exit 0 \/ exists e, fst (fst run) = Raised e)) /\
  (list_ratings opts = true ->
   run = (match print_ratings cstring_bold cstring_underline fill60
                              (get_rows (txt "SELECT * FROM rating_types;")) con
          with
          | (Some e, con') => (Raised e, con', w)
          | (None, con') => (Exit 0, con', w)
          end)) /\
  (forall n, list_ratings opts = false -> describe_rating opts = Some n ->
     get_rows (get_rating_types_query [n]) = [] ->
     run = (Raised RIndexError, con, w)) /\
  (list_ratings opts = false -> describe_rating opts = None ->
   run = main get_data_answer id fill72 args opts con w).
Proof.
  intros run. unfold run, script, get_all_rating_types, get_rating_types.
  split; [| split; [| split]].
  - intros H. destruct (list_ratings opts) eqn:L.
    + pose proof (print_ratings_stderr cstring_bold cstring_underline fill60
                    (get_rows (txt "SELECT * FROM rating_types;")) con) as He.
      destruct (print_ratings cstring_bold cstring_underline fill60
                  (get_rows (txt "SELECT * FROM rating_types;")) con)
        as [[e|] con']; cbn [fst snd] in *; eauto.
    + destruct H as [H | H]; [discriminate |].
      destruct (describe_rating opts) as [n|]; [| congruence].
      destruct (get_rows (get_rating_types_query [n])) as [|rt rows];
        cbn [fst snd]; [eauto |].
      destruct (fst (format_rating cstring_bold cstring_underline fill60 rt true));
        cbn [fst snd]; eauto.
  - intros ->. reflexivity.
  - intros n -> -> ->. reflexivity.
  - intros -> ->. reflexivity.
Qed.

Lemma script_dispatch_witness :
  script (fun (_ : text) (n : nat) => (@nil Z, n)) 1 (fun _ => [])
         (fun s => s) (fun s => s) (fun s => s) (fun s => s)
         [txt "c{snr}"] (Options false (Some 12%Z) (txt "1") 1000 false false)
         (Console [] []) (World 0 [] []) =
  (Raised RIndexError, Console [] [], World 0 [] []).
Proof.
  apply (proj1 (proj2 (proj2 (script_dispatch Z nat (fun _ n => (@nil Z, n)) 1
           (fun _ => []) (fun s => s) (fun s => s) (fun s => s) (fun s => s)
           [txt "c{snr}"] (Options false (Some 12%Z) (txt "1") 1000 false false)
           (Console [] []) (World 0 [] []))))
           12%Z eq_refl eq_refl eq_refl).
Defined.
